(** * KVideo: access gate and subscription syncer

    A shallow embedding of [src/components/PasswordGate.tsx] (the
    [PasswordGate] component) and of the [useSubscriptionSync] hook, with the
    properties of the lock state, of the unlock attempt, of the sync batch
    and of the debounce timer.

    Component state ([useState] cells), the session storage, the settings
    store and the effects a handler performs (network requests, console
    output, store writes) are explicit fields of a world record; every
    handler is a function from worlds to worlds.  The answers of the network
    and the readings of the clock are inputs. *)

From stdpp Require Import base option list gmap strings.
From Stdlib Require Import ZArith Lia.

Local Open Scope Z_scope.

(** ** Data model *)

(** A subscription as the hook reads it.  [autoRefresh] and [lastUpdated]
    may be absent on the object ([None]). *)
Record Subscription := mkSubscription {
  id : string;
  url : string;
  name : string;
  autoRefresh : option bool;
  lastUpdated : option Z
}.

Section Model.

(** [Source] is the opaque record of a playable source, [Rest] stands for the
    settings fields that neither component reads (they are copied by the
    object spread), [EnvSubs] for the server-declared subscription list. *)
Context {Source Rest EnvSubs : Type}.

Record Settings := mkSettings {
  passwordAccess : bool;
  accessPasswords : list string;
  subscriptions : list Subscription;
  sources : list Source;
  premiumSources : list Source;
  rest : Rest
}.

(** ** PasswordGate *)

Definition SESSION_UNLOCKED_KEY : string := "kvideo-unlocked".

(** The [useState] cells of the component. *)
Record Gate := mkGate {
  isLocked : bool;
  password : string;
  error : bool;
  isClient : bool;
  hasEnvPassword : bool;
  isValidating : bool
}.

(** What the component does to the outside, in order. *)
Inductive Effect :=
  | FetchConfig                      (* fetch('/api/config') *)
  | PostPassword (candidate : string) (* fetch('/api/config', {method: 'POST', ...}) *)
  | ConsoleLog
  | ConsoleError
  | Shake.                           (* the animate-shake class, removed after 500 ms *)

Record GateWorld := mkGateWorld {
  gate : Gate;
  mounted : bool;
  sessionStorage : gmap string string;
  settingsStore : Settings;
  effects : list Effect
}.

(** The body of GET /api/config. *)
Record ConfigData := mkConfigData {
  cfg_hasEnvPassword : bool;
  cfg_subscriptionSources : option EnvSubs
}.

(** The outcome of POST /api/config: the [valid] field of the answer, or a
    request that throws. *)
Inductive ValidateOutcome :=
  | Answered (valid : bool)
  | RequestFailed.

Definition setGate (f : Gate -> Gate) (w : GateWorld) : GateWorld :=
  mkGateWorld (f (gate w)) (mounted w) (sessionStorage w) (settingsStore w) (effects w).

Definition setIsLocked (b : bool) : GateWorld -> GateWorld :=
  setGate (fun g => mkGate b (password g) (error g) (isClient g) (hasEnvPassword g) (isValidating g)).

Definition setPassword (p : string) : GateWorld -> GateWorld :=
  setGate (fun g => mkGate (isLocked g) p (error g) (isClient g) (hasEnvPassword g) (isValidating g)).

Definition setError (b : bool) : GateWorld -> GateWorld :=
  setGate (fun g => mkGate (isLocked g) (password g) b (isClient g) (hasEnvPassword g) (isValidating g)).

Definition setIsClient (b : bool) : GateWorld -> GateWorld :=
  setGate (fun g => mkGate (isLocked g) (password g) (error g) b (hasEnvPassword g) (isValidating g)).

Definition setHasEnvPassword (b : bool) : GateWorld -> GateWorld :=
  setGate (fun g => mkGate (isLocked g) (password g) (error g) (isClient g) b (isValidating g)).

Definition setIsValidating (b : bool) : GateWorld -> GateWorld :=
  setGate (fun g => mkGate (isLocked g) (password g) (error g) (isClient g) (hasEnvPassword g) b).

Definition setMounted (b : bool) (w : GateWorld) : GateWorld :=
  mkGateWorld (gate w) b (sessionStorage w) (settingsStore w) (effects w).

Definition setItem (k v : string) (w : GateWorld) : GateWorld :=
  mkGateWorld (gate w) (mounted w) (<[k := v]> (sessionStorage w)) (settingsStore w) (effects w).

Definition setStore (s : Settings) (w : GateWorld) : GateWorld :=
  mkGateWorld (gate w) (mounted w) (sessionStorage w) s (effects w).

Definition emit (e : Effect) (w : GateWorld) : GateWorld :=
  mkGateWorld (gate w) (mounted w) (sessionStorage w) (settingsStore w) (effects w ++ [e]).

(** [sessionStorage.getItem(SESSION_UNLOCKED_KEY) === 'true'] *)
Definition sessionUnlocked (w : GateWorld) : bool :=
  bool_decide (sessionStorage w !! SESSION_UNLOCKED_KEY = Some "true"%string).

(** The expression both computations of [init] evaluate. *)
Definition lockFormula (pa env unlocked : bool) : bool :=
  (pa || env) && negb unlocked.

(** The initial cells: [useState(true)], [useState('')], [useState(false)],
    [useState(false)], [useState(initialHasEnvPassword)], [useState(false)]. *)
Definition initialGate (initialHasEnvPassword : bool) : Gate :=
  mkGate true "" false false initialHasEnvPassword false.

(** What [init] keeps in its closure across the [await]. *)
Record InitClosure := mkInitClosure {
  cl_settings : Settings;
  cl_isUnlocked : bool
}.

(** [init], up to the first [await]: the effect sets [mounted = true], reads
    the store and the session flag, sets the provisional lock state and
    issues the config request. *)
Definition init_local (initialHasEnvPassword : bool) (w : GateWorld)
  : InitClosure * GateWorld :=
  let w := setMounted true w in
  let settings := settingsStore w in
  let isUnlocked := sessionUnlocked w in
  let localLocked := (passwordAccess settings || initialHasEnvPassword) && negb isUnlocked in
  let w := if mounted w then setIsLocked localLocked w else w in
  let w := if mounted w then setIsClient true w else w in
  (mkInitClosure settings isUnlocked, emit FetchConfig w).

Section WithStore.

(** [settingsStore.syncEnvSubscriptions], owned by the store. *)
Variable syncEnvSubscriptions : EnvSubs -> Settings -> Settings.

(** [init], after the [await].  [None] is a request that throws, an answer
    that is not [ok], or a body that does not parse. *)
Definition init_remote (c : InitClosure) (resp : option ConfigData) (w : GateWorld)
  : GateWorld :=
  match resp with
  | None => emit ConsoleError w
  | Some data =>
      if mounted w then
        let w := setHasEnvPassword (cfg_hasEnvPassword data) w in
        let w :=
          match cfg_subscriptionSources data with
          | Some srcs =>
              setStore (syncEnvSubscriptions srcs (settingsStore w)) (emit ConsoleLog w)
          | None => w
          end in
        let confirmLocked :=
          (passwordAccess (cl_settings c) || cfg_hasEnvPassword data) && negb (cl_isUnlocked c) in
        setIsLocked confirmLocked w
      else w
  end.

(** The whole of [init] when nothing else happens during the request. *)
Definition init (initialHasEnvPassword : bool) (resp : option ConfigData) (w : GateWorld)
  : GateWorld :=
  let '(c, w1) := init_local initialHasEnvPassword w in
  init_remote c resp w1.

End WithStore.

(** The cleanup of the first effect. *)
Definition unmount (w : GateWorld) : GateWorld := setMounted false w.

(** The store subscriber. *)
Definition handleSettingsUpdate (w : GateWorld) : GateWorld :=
  let settings := settingsStore w in
  let isUnlocked := sessionUnlocked w in
  if negb (passwordAccess settings) && negb (hasEnvPassword (gate w)) then
    setIsLocked false w
  else if passwordAccess settings && negb isUnlocked then
    setIsLocked true w
  else w.

(** [settings.accessPasswords.includes(password)] *)
Definition includes (l : list string) (p : string) : bool :=
  bool_decide (p ∈ l).

(** The form's submit handler.  [server] is what the validation request
    yields if it is issued. *)
Definition handleUnlock (server : ValidateOutcome) (w : GateWorld) : GateWorld :=
  let candidate := password (gate w) in
  let envKnown := hasEnvPassword (gate w) in
  let w := setIsValidating true w in
  let settings := settingsStore w in
  let unlock w :=
    setIsValidating false (setError false (setIsLocked false
      (setItem SESSION_UNLOCKED_KEY "true" w))) in
  let reject w :=
    emit Shake (setIsValidating false (setError true w)) in
  if includes (accessPasswords settings) candidate then unlock w
  else if envKnown then
    let w := emit (PostPassword candidate) w in
    match server with
    | Answered true => unlock w
    | Answered false => reject w
    | RequestFailed => reject w
    end
  else reject w.

(** The input's [onChange]. *)
Definition onPasswordChange (v : string) (w : GateWorld) : GateWorld :=
  setError false (setPassword v w).

(** ** useSubscriptionSync *)

(** What [fetchSourcesFromUrl] resolves to. *)
Record FetchResult := mkFetchResult {
  normalSources : list Source;
  result_premiumSources : list Source
}.

(** The world of the hook: the settings store, the requests made so far
    (their urls, in order), the number of clock readings taken so far, the
    arguments of the [saveSettings] calls made so far and the names passed
    to [console.error]. *)
Record SyncWorld := mkSyncWorld {
  store : Settings;
  fetched : list string;
  clockReads : nat;
  saves : list Settings;
  errorLog : list string
}.

(** A computation of the hook: state passing over [SyncWorld]. *)
Definition M (A : Type) : Type := SyncWorld -> A * SyncWorld.

Definition ret {A} (a : A) : M A := fun w => (a, w).

Definition bind {A B} (c : M A) (k : A -> M B) : M B :=
  fun w => let '(a, w1) := c w in k a w1.

Notation "'do' x <- c ; k" := (bind c (fun x => k))
  (at level 10, x name, c at level 100, k at level 200).
Notation "'do' ' p <- c ; k" := (bind c (fun x => match x with p => k end))
  (at level 10, p pattern, c at level 100, k at level 200).

Definition getSettings : M Settings := fun w => (store w, w).

Definition stored (s : Settings) (w : SyncWorld) : SyncWorld :=
  mkSyncWorld s (fetched w) (clockReads w) (saves w ++ [s]) (errorLog w).

Definition requested (u : string) (w : SyncWorld) : SyncWorld :=
  mkSyncWorld (store w) (fetched w ++ [u]) (clockReads w) (saves w) (errorLog w).

Definition ticked (w : SyncWorld) : SyncWorld :=
  mkSyncWorld (store w) (fetched w) (S (clockReads w)) (saves w) (errorLog w).

Definition complained (who : string) (w : SyncWorld) : SyncWorld :=
  mkSyncWorld (store w) (fetched w) (clockReads w) (saves w) (errorLog w ++ [who]).

(** [settingsStore.saveSettings]: the store takes the new settings; the call
    is recorded. *)
Definition saveSettings (s : Settings) : M unit := fun w => (tt, stored s w).

Definition console_error (who : string) : M unit := fun w => (tt, complained who w).

Section WithEnvironment.

(** [mergeSources], owned by the import utilities. *)
Variable mergeSources : list Source -> list Source -> list Source.

(** The network: the outcome of the [k]-th request of the hook when it asks
    for [url]; [None] is a rejected promise. *)
Variable network : nat -> string -> option FetchResult.

(** The clock: the value of the [k]-th [Date.now()] of the hook. *)
Variable clock : nat -> Z.

Definition fetchSourcesFromUrl (u : string) : M (option FetchResult) := fun w =>
  (network (length (fetched w)) u, requested u w).

Definition Date_now : M Z := fun w => (clock (clockReads w), ticked w).

(** The four locals of [sync] that the loop updates. *)
Record Acc := mkAcc {
  anyChanged : bool;
  currentSources : list Source;
  currentPremiumSources : list Source;
  updatedSubscriptions : list Subscription
}.

(** [arr.length > 0] *)
Definition nonEmpty {A} (l : list A) : bool :=
  match l with [] => false | _ :: _ => true end.

(** [{ ...s, lastUpdated: t }] *)
Definition withLastUpdated (t : Z) (s : Subscription) : Subscription :=
  mkSubscription (id s) (url s) (name s) (autoRefresh s) (Some t).

(** [s.autoRefresh !== false] *)
Definition active (s : Subscription) : Prop := autoRefresh s ≠ Some false.

#[global] Instance active_dec s : Decision (active s).
Proof. unfold active. apply _. Defined.

(** [arr.findIndex(s => s.id === sub.id)], with the element found. *)
Definition findIndex (sub : Subscription) (l : list Subscription)
  : option (nat * Subscription) :=
  list_find (fun s => id s = id sub) l.

(** The two guarded merges of a successful fetch. *)
Definition mergeResult (result : FetchResult) (acc : Acc) : Acc :=
  let acc :=
    if nonEmpty (normalSources result) then
      mkAcc true (mergeSources (currentSources acc) (normalSources result))
            (currentPremiumSources acc) (updatedSubscriptions acc)
    else acc in
  if nonEmpty (result_premiumSources result) then
    mkAcc true (currentSources acc)
          (mergeSources (currentPremiumSources acc) (result_premiumSources result))
          (updatedSubscriptions acc)
  else acc.

(** The timestamp update of a successful fetch. *)
Definition stamp (sub : Subscription) (acc : Acc) : M Acc :=
  match findIndex sub (updatedSubscriptions acc) with
  | Some (subIdx, old) =>
      do t <- Date_now;
      ret (mkAcc (anyChanged acc) (currentSources acc) (currentPremiumSources acc)
                 (<[subIdx := withLastUpdated t old]> (updatedSubscriptions acc)))
  | None => ret acc
  end.

(** One iteration of the [for] loop: the [try] block and its [catch].  The
    only throw that is modelled is the rejected fetch; [mergeSources] always
    returns. *)
Definition sync_step (acc : Acc) (sub : Subscription) : M Acc :=
  do r <- fetchSourcesFromUrl (url sub);
  match r with
  | Some result => stamp sub (mergeResult result acc)
  | None => do _ <- console_error (name sub); ret acc
  end.

(** The [for] loop over [activeSubscriptions]. *)
Fixpoint sync_loop (subs : list Subscription) (acc : Acc) : M Acc :=
  match subs with
  | [] => ret acc
  | sub :: subs' => do acc' <- sync_step acc sub; sync_loop subs' acc'
  end.

(** The outcomes of the requests of a loop over [subs] whose first request is
    the [k]-th of the hook. *)
Fixpoint outcomesFrom (k : nat) (subs : list Subscription) : list (option FetchResult) :=
  match subs with
  | [] => []
  | sub :: subs' => network k (url sub) :: outcomesFrom (S k) subs'
  end.

(** A fetch that succeeded with a non-empty normal or premium list: the two
    conditions under which the loop sets [anyChanged]. *)
Definition gotSources (o : option FetchResult) : bool :=
  match o with
  | Some result => nonEmpty (normalSources result) || nonEmpty (result_premiumSources result)
  | None => false
  end.

(** The locals of [sync] before the loop. *)
Definition initialAcc (settings : Settings) (subs : list Subscription) : Acc :=
  mkAcc false (sources settings) (premiumSources settings) subs.

(** The argument of [saveSettings]: the settings read before the loop, with
    the three fields replaced. *)
Definition savedSettings (settings : Settings) (acc : Acc) : Settings :=
  mkSettings (passwordAccess settings) (accessPasswords settings)
             (updatedSubscriptions acc) (currentSources acc)
             (currentPremiumSources acc) (rest settings).

(** The end of [sync]: the one conditional write. *)
Definition sync_finish (settings : Settings) (acc : Acc) : M unit :=
  if anyChanged acc then saveSettings (savedSettings settings acc)
  else ret tt.

(** [sync], for the [subscriptions] of the render that armed it. *)
Definition sync (subs : list Subscription) : M unit :=
  let activeSubscriptions := filter active subs in
  if (length activeSubscriptions =? 0)%nat then ret tt
  else
    do settings <- getSettings;
    do acc <- sync_loop activeSubscriptions (initialAcc settings subs);
    sync_finish settings acc.

(** The hook over time when nothing else writes the store: its
    [subscriptions] state follows the store (the subscriber of the first
    effect), and each round is one run of [sync]. *)
Fixpoint rounds (n : nat) (w : SyncWorld) : SyncWorld :=
  match n with
  | O => w
  | S n' => rounds n' (sync (subscriptions (store w)) w).2
  end.

End WithEnvironment.

End Model.

(** ** The debounce of the sync effect

    The second effect of the hook, [setTimeout(sync, 1000)] with the cleanup
    [clearTimeout(timeoutId)], over a timer table in logical time
    (milliseconds).  A timer runs its callback no earlier than its due time;
    a start of [sync] is recorded with the time at which it happens. *)

Record Timers := mkTimers {
  now : Z;
  pending : list (nat * Z);   (* timer id and due time, in registration order *)
  nextId : nat;
  timeoutId : option nat;     (* the id held by the cleanup of the last effect run *)
  launches : list Z           (* the times at which [sync] was started *)
}.

Definition setTimeout (delay : Z) (t : Timers) : nat * Timers :=
  (nextId t,
   mkTimers (now t) (pending t ++ [(nextId t, now t + delay)]) (S (nextId t))
            (timeoutId t) (launches t)).

Definition clearTimeout (i : nat) (t : Timers) : Timers :=
  mkTimers (now t) (filter (fun p => p.1 ≠ i) (pending t)) (nextId t)
           (timeoutId t) (launches t).

(** The effect body: [const timeoutId = setTimeout(sync, 1000)]. *)
Definition armSync (t : Timers) : Timers :=
  let '(i, t1) := setTimeout 1000 t in
  mkTimers (now t1) (pending t1) (nextId t1) (Some i) (launches t1).

(** The effect cleanup: [clearTimeout(timeoutId)]. *)
Definition cleanupSync (t : Timers) : Timers :=
  match timeoutId t with
  | Some i => clearTimeout i t
  | None => t
  end.

(** The first render: the effect runs, nothing to clean up. *)
Definition mountSync (t0 : Z) : Timers :=
  armSync (mkTimers t0 [] 0 None []).

(** A render with a new [subscriptions] reference: the cleanup of the
    previous run, then the effect again. *)
Definition subscriptionsChanged (t : Timers) : Timers :=
  armSync (cleanupSync t).

(** [dt] milliseconds pass: the timers that are due run [sync] and leave the
    table. *)
Definition elapse (dt : Z) (t : Timers) : Timers :=
  let t' := now t + dt in
  mkTimers t'
           (filter (fun p => ¬ p.2 ≤ t') (pending t))
           (nextId t) (timeoutId t)
           (launches t ++ ((fun _ => t') <$> filter (fun p => p.2 ≤ t') (pending t))).

Inductive Event :=
  | SubscriptionsChanged
  | Elapse (dt : Z).

Definition step (t : Timers) (e : Event) : Timers :=
  match e with
  | SubscriptionsChanged => subscriptionsChanged t
  | Elapse dt => elapse dt t
  end.

Definition run (evs : list Event) (t : Timers) : Timers :=
  foldl step t evs.

(** A burst of further changes, each [d] milliseconds after the one before. *)
Definition burst (ds : list Z) : list Event :=
  ds ≫= (fun d => [Elapse d; SubscriptionsChanged]).

(** Every pending timer is the one the current cleanup will clear. *)
Definition cleanupCovers (t : Timers) : Prop :=
  match timeoutId t with
  | Some i => Forall (fun p => p.1 = i) (pending t)
  | None => pending t = []
  end.

(** The state during a burst: one timer, due a second after the last change,
    and the launches there were before the burst. *)
Definition armedSince (L : list Z) (t : Timers) : Prop :=
  launches t = L
  /\ exists i, timeoutId t = Some i /\ pending t = [(i, now t + 1000)].

(** ** Vocabulary of the sync properties *)

(** The same subscription up to its timestamp. *)
Definition sameSubscription (s s' : Subscription) : Prop :=
  id s' = id s /\ url s' = url s /\ name s' = name s /\ autoRefresh s' = autoRefresh s.

(** [s'] is [s], with its timestamp either kept or replaced by one of the
    clock readings number [lo] to [hi - 1]. *)
Definition stampedIn (clock : nat -> Z) (lo hi : nat) (s s' : Subscription) : Prop :=
  sameSubscription s s'
  /\ (lastUpdated s' = lastUpdated s
      \/ exists k, (lo <= k < hi)%nat /\ lastUpdated s' = Some (clock k)).

(** The timestamp of [s'] is that of [s], or one that is no earlier. *)
Definition notEarlier (s s' : Subscription) : Prop :=
  id s' = id s
  /\ (lastUpdated s' = lastUpdated s
      \/ exists t', lastUpdated s' = Some t'
                    /\ forall t, lastUpdated s = Some t -> t <= t').

(** An entry of [l] for the id [x] carries one of the clock readings number
    [lo] to [hi - 1]. *)
Definition stampRecorded (clock : nat -> Z) (x : string) (lo hi : nat)
    (l : list Subscription) : Prop :=
  exists i s j, l !! i = Some s /\ id s = x /\ (lo <= j < hi)%nat
                /\ lastUpdated s = Some (clock j).

(** No timestamp in [l] is later than [t]. *)
Definition stampsUpTo (t : Z) (l : list Subscription) : Prop :=
  forall s u, s ∈ l -> lastUpdated s = Some u -> u <= t.

(** ** The component over time: what it renders and the events it meets *)

(** What the component returns: [null], the children, or the password form
    with the value of the input and whether the error line is shown. *)
Inductive View :=
  | RenderNothing
  | RenderChildren
  | RenderPrompt (value : string) (showError : bool).

(** The three returns at the end of [PasswordGate]. *)
Definition render (g : Gate) : View :=
  if negb (isClient g) then RenderNothing
  else if negb (isLocked g) then RenderChildren
  else RenderPrompt (password g) (error g).

Section GateEvents.

Context {Source Rest EnvSubs : Type}.
Variable syncEnvSubscriptions : EnvSubs -> @Settings Source Rest -> @Settings Source Rest.

(** What can happen to a component.  The answer to the config request is an
    event of its own, with the closure of the [init] it belongs to: other
    events may come between the start of [init] and its answer.  A store
    change reaches the subscriber while the component is mounted. *)
Inductive GateEvent :=
  | InitStarted (initialHasEnvPassword : bool)
  | ConfigAnswered (c : @InitClosure Source Rest) (resp : option (@ConfigData EnvSubs))
  | Unmounted
  | StoreChanged (s : @Settings Source Rest)
  | Typed (v : string)
  | Submitted (server : ValidateOutcome).

Definition gateStep (w : @GateWorld Source Rest) (ev : GateEvent) : @GateWorld Source Rest :=
  match ev with
  | InitStarted initial => (init_local initial w).2
  | ConfigAnswered c resp => init_remote syncEnvSubscriptions c resp w
  | Unmounted => unmount w
  | StoreChanged s =>
      if mounted w then handleSettingsUpdate (setStore s w) else setStore s w
  | Typed v => onPasswordChange v w
  | Submitted server => handleUnlock server w
  end.

Definition gateRun (evs : list GateEvent) (w : @GateWorld Source Rest)
  : @GateWorld Source Rest :=
  foldl gateStep w evs.

(** A config answer that is acted on belongs to an [init] that found the
    session unlocked. *)
Definition answeredUnlocked (ev : GateEvent) : Prop :=
  match ev with
  | ConfigAnswered c (Some _) => cl_isUnlocked c = true
  | _ => True
  end.

(** The events that need neither the visitor nor a new mount. *)
Definition passiveEvent (ev : GateEvent) : Prop :=
  match ev with
  | ConfigAnswered _ _ | StoreChanged _ | Unmounted => True
  | InitStarted _ | Typed _ | Submitted _ => False
  end.

End GateEvents.

(** ** Vocabulary of the further debounce properties *)

Definition isChange (e : Event) : bool :=
  match e with
  | SubscriptionsChanged => true
  | Elapse _ => false
  end.

(** The number of changes of the subscription list among the events. *)
Definition countChanges (evs : list Event) : nat :=
  length (filter (fun e => isChange e = true) evs).

(** ** Vocabulary of the further sync properties *)

#[global] Instance Subscription_eq_dec : EqDecision Subscription.
Proof. solve_decision. Defined.

Section SyncVocabulary.

Context {Source : Type}.
Variable network : nat -> string -> option (@FetchResult Source).

(** The names of the subscriptions whose request fails, for a loop over
    [subs] whose first request is the [k]-th of the hook. *)
Fixpoint failuresFrom (k : nat) (subs : list Subscription) : list string :=
  match subs with
  | [] => []
  | sub :: subs' =>
      match network k (url sub) with
      | None => name sub :: failuresFrom (S k) subs'
      | Some _ => failuresFrom (S k) subs'
      end
  end.

(** The results of the requests that succeed, in order. *)
Definition successesFrom (k : nat) (subs : list Subscription) : list FetchResult :=
  omap (fun o => o) (outcomesFrom network k subs).

(** The lists that pass the test [length > 0]. *)
Definition nonEmptyLists (ls : list (list Source)) : list (list Source) :=
  filter (fun l => nonEmpty l = true) ls.

End SyncVocabulary.

(** ** Concrete inputs

    Sources are their names, the unread settings fields are absent and the
    server-declared subscription list is a list of urls. *)

Definition exampleSettings (pa : bool) (pws : list string)
  : @Settings string unit :=
  mkSettings pa pws [] [] [] tt.

Definition exampleGate (locked : bool) (pw : string) (env : bool) : Gate :=
  mkGate locked pw false true env false.

Definition exampleWorld (locked : bool) (pw : string) (env : bool)
    (session : gmap string string) (pa : bool) (pws : list string)
  : @GateWorld string unit :=
  mkGateWorld (exampleGate locked pw env) true session (exampleSettings pa pws) [].

Definition unlockedSession : gmap string string :=
  {[ SESSION_UNLOCKED_KEY := "true"%string ]}.

(** A store that appends the server-declared urls as new subscriptions. *)
Definition exampleSyncEnv (urls : list string) (s : @Settings string unit)
  : @Settings string unit :=
  mkSettings (passwordAccess s) (accessPasswords s)
             (subscriptions s ++ ((fun u => mkSubscription u u u None None) <$> urls))
             (sources s) (premiumSources s) (rest s).

(** Four subscriptions, the second one switched off, and a store that holds
    them. *)
Definition subA : Subscription :=
  mkSubscription "a" "https://a.example/feed" "A" None (Some 10).
Definition subB : Subscription :=
  mkSubscription "b" "https://b.example/feed" "B" (Some true) None.
Definition subC : Subscription :=
  mkSubscription "c" "https://c.example/feed" "C" None None.
Definition subOff : Subscription :=
  mkSubscription "off" "https://off.example/feed" "Off" (Some false) (Some 7).

Definition exampleSubs : list Subscription := [subA; subOff; subB; subC].

Definition exampleStore : @Settings string unit :=
  mkSettings true ["secret"%string] exampleSubs ["s0"%string] [] tt.

Definition exampleSyncWorld : @SyncWorld string unit :=
  mkSyncWorld exampleStore [] 0 [] [].

(** Modelled from the spec: [mergeSources] of the import utilities, which is
    not among the sources read here; the spec has it merge by identity
    without duplicating an entry that is merged twice.  This one appends the
    incoming sources that are not there yet. *)
Definition exampleMerge (existing incoming : list string) : list string :=
  existing ++ filter (fun x => x ∉ existing) incoming.

(** The first and the third request succeed, every other one fails. *)
Definition exampleNetwork (k : nat) (u : string) : option (@FetchResult string) :=
  match k with
  | 0%nat => Some (mkFetchResult ["s1"%string] [])
  | 2%nat => Some (mkFetchResult ["s0"%string; "s2"%string] ["p1"%string])
  | _ => None
  end.

(** The second request fails, every other one succeeds with nothing. *)
Definition quietNetwork (k : nat) (u : string) : option (@FetchResult string) :=
  match k with
  | 1%nat => None
  | _ => Some (mkFetchResult [] [])
  end.

(** Every request succeeds with the one source that is stored already. *)
Definition knownNetwork (k : nat) (u : string) : option (@FetchResult string) :=
  Some (mkFetchResult ["s0"%string] []).

(** Every request succeeds with one new source. *)
Definition steadyNetwork (k : nat) (u : string) : option (@FetchResult string) :=
  Some (mkFetchResult ["s1"%string] []).

Definition exampleClock (k : nat) : Z := 1000 + Z.of_nat k.

(** A clock that reads 5 when [subA] carries the timestamp 10. *)
Definition backwardsClock (k : nat) : Z := 5.

(** Two active subscriptions without a timestamp, and a store that holds
    them. *)
Definition pairSubs : list Subscription := [subB; subC].

Definition pairWorld : @SyncWorld string unit :=
  mkSyncWorld (mkSettings true [] pairSubs ["s0"%string] [] tt) [] 0 [] [].

(** Two subscriptions with the same id, the second behind the first, and a
    store that holds them. *)
Definition subA2 : Subscription :=
  mkSubscription "a" "https://mirror.example/feed" "A2" None (Some 3).

Definition dupSubs : list Subscription := [subA; subA2; subC].

Definition dupWorld : @SyncWorld string unit :=
  mkSyncWorld (mkSettings true [] dupSubs ["s0"%string] [] tt) [] 0 [] [].

(** Only subscriptions that are switched off. *)
Definition offSubs : list Subscription := [subOff; subOff].

(** What a visitor may do to a gate that is open in an unlocked session. *)
Definition exampleEvents : list (@GateEvent string unit (list string)) :=
  [ StoreChanged (exampleSettings true []);
    InitStarted true;
    ConfigAnswered (mkInitClosure (exampleSettings true []) true)
                   (Some (mkConfigData true None));
    Submitted RequestFailed;
    Typed "x";
    Unmounted ].

(** * Properties *)

(** ** PasswordGate *)

Section GateProperties.

Context {Source Rest EnvSubs : Type}.
Local Abbreviation GateWorld := (@GateWorld Source Rest).
Local Abbreviation Settings := (@Settings Source Rest).
Variable syncEnvSubscriptions : EnvSubs -> Settings -> Settings.

Implicit Types w : GateWorld.

Lemma isLocked_setIsLocked b w : isLocked (gate (setIsLocked b w)) = b.
Proof. reflexivity. Qed.

(** The provisional computation of [init]. *)
Lemma init_local_locked initial w :
  isLocked (gate (init_local initial w).2)
  = lockFormula (passwordAccess (settingsStore w)) initial (sessionUnlocked w).
Proof. reflexivity. Qed.

Lemma init_local_closure initial w :
  (init_local initial w).1 = mkInitClosure (settingsStore w) (sessionUnlocked w).
Proof. reflexivity. Qed.

Lemma init_local_mounted initial w : mounted (init_local initial w).2 = true.
Proof. reflexivity. Qed.

(** The confirmed computation of [init], on a mounted component. *)
Lemma init_remote_locked c data w :
  mounted w = true ->
  isLocked (gate (init_remote syncEnvSubscriptions c (Some data) w))
  = lockFormula (passwordAccess (cl_settings c)) (cfg_hasEnvPassword data) (cl_isUnlocked c).
Proof.
  intros Hm. unfold init_remote. rewrite Hm.
  destruct (cfg_subscriptionSources data); reflexivity.
Qed.

(** A failed config request leaves the component as it was. *)
Lemma init_remote_failed c w :
  gate (init_remote syncEnvSubscriptions c None w) = gate w.
Proof. reflexivity. Qed.

(** What the store subscriber does to the lock state, branch by branch. *)
Lemma handleSettingsUpdate_locked w :
  isLocked (gate (handleSettingsUpdate w))
  = if negb (passwordAccess (settingsStore w)) && negb (hasEnvPassword (gate w)) then false
    else if passwordAccess (settingsStore w) && negb (sessionUnlocked w) then true
    else isLocked (gate w).
Proof.
  unfold handleSettingsUpdate.
  destruct (negb (passwordAccess (settingsStore w)) && negb (hasEnvPassword (gate w)));
    [reflexivity|].
  destruct (passwordAccess (settingsStore w) && negb (sessionUnlocked w)); reflexivity.
Qed.

End GateProperties.

Section GateClaims.

Context {Source Rest EnvSubs : Type}.
Local Abbreviation GateWorld := (@GateWorld Source Rest).
Local Abbreviation Settings := (@Settings Source Rest).
Variable syncEnvSubscriptions : EnvSubs -> Settings -> Settings.

Implicit Types w : GateWorld.

(** C1, as amended.  Both computations of [init] give the lock state the value
    of [(passwordAccess || envPasswordPresent) && !sessionUnlocked]: the
    provisional one with the server flag passed to the component, the
    confirmed one, on a mounted component, with the flag of the answer and
    with [passwordAccess] and the session flag as [init] read them when it
    started.  The settings subscriber sets
    the lock state to [false] when password access is off and no server
    password is known, to [true] when password access is on and the session is
    not unlocked, and otherwise keeps the lock state it finds; so it yields
    the value of the formula whenever the lock state it finds is the value of
    the formula for the same server flag and session flag under some earlier
    [passwordAccess]. *)
Theorem lock_state_recomputation initial (data : @ConfigData EnvSubs) pa0 c w :
  isLocked (gate (init_local initial w).2)
    = lockFormula (passwordAccess (settingsStore w)) initial (sessionUnlocked w)
  /\ isLocked (gate (init_remote syncEnvSubscriptions c (Some data) (setMounted true w)))
    = lockFormula (passwordAccess (cl_settings c)) (cfg_hasEnvPassword data)
                  (cl_isUnlocked c)
  /\ isLocked (gate (init syncEnvSubscriptions initial (Some data) w))
    = lockFormula (passwordAccess (settingsStore w)) (cfg_hasEnvPassword data)
                  (sessionUnlocked w)
  /\ isLocked (gate (init syncEnvSubscriptions initial None w))
    = lockFormula (passwordAccess (settingsStore w)) initial (sessionUnlocked w)
  /\ isLocked (gate (handleSettingsUpdate w))
    = (if negb (passwordAccess (settingsStore w)) && negb (hasEnvPassword (gate w))
       then lockFormula (passwordAccess (settingsStore w)) (hasEnvPassword (gate w))
                        (sessionUnlocked w)
       else if passwordAccess (settingsStore w) && negb (sessionUnlocked w)
       then lockFormula (passwordAccess (settingsStore w)) (hasEnvPassword (gate w))
                        (sessionUnlocked w)
       else isLocked (gate w))
  /\ isLocked (gate (handleSettingsUpdate
        (setIsLocked (lockFormula pa0 (hasEnvPassword (gate w)) (sessionUnlocked w)) w)))
    = lockFormula (passwordAccess (settingsStore w)) (hasEnvPassword (gate w))
                  (sessionUnlocked w).
Proof.
  split; [apply init_local_locked|].
  split; [apply init_remote_locked; reflexivity|].
  split; [|split; [apply init_local_locked|split]].
  - unfold init. rewrite (surjective_pairing (init_local initial w)).
    rewrite init_remote_locked by apply init_local_mounted.
    rewrite init_local_closure. reflexivity.
  - rewrite handleSettingsUpdate_locked. unfold lockFormula.
    destruct (passwordAccess (settingsStore w)), (hasEnvPassword (gate w)),
      (sessionUnlocked w); reflexivity.
  - rewrite handleSettingsUpdate_locked.
    change (sessionUnlocked (setIsLocked ?b w)) with (sessionUnlocked w).
    cbn. unfold lockFormula.
    destruct (passwordAccess (settingsStore w)), (hasEnvPassword (gate w)),
      (sessionUnlocked w), pa0; reflexivity.
Qed.

(** C7.  When the session flag already reads ["true"], the lock state is
    [false] after the provisional computation of [init] and after the whole
    of [init], for every local setting, every server flag, every answer to
    the config request (or none), and also when the component is unmounted
    while the request is under way. *)
Theorem init_unlocked_session initial (resp : option (@ConfigData EnvSubs)) w :
  sessionStorage w !! SESSION_UNLOCKED_KEY = Some "true"%string ->
  isLocked (gate (init_local initial w).2) = false
  /\ isLocked (gate (init syncEnvSubscriptions initial resp w)) = false
  /\ isLocked (gate (init_remote syncEnvSubscriptions (init_local initial w).1 resp
                      (unmount (init_local initial w).2))) = false.
Proof.
  intros Hs.
  assert (Hu : sessionUnlocked w = true)
    by (unfold sessionUnlocked; apply bool_decide_eq_true_2, Hs).
  assert (Hl : isLocked (gate (init_local initial w).2) = false).
  { rewrite init_local_locked, Hu. unfold lockFormula. apply andb_false_r. }
  split; [exact Hl|]. split.
  - destruct resp as [data|].
    + unfold init. rewrite (surjective_pairing (init_local initial w)).
      rewrite init_remote_locked by apply init_local_mounted.
      rewrite init_local_closure. cbn. rewrite Hu. apply andb_false_r.
    + exact Hl.
  - destruct resp as [data|]; exact Hl.
Qed.

(** C10.  A settings change that finds password access off while a server
    password is known changes nothing: the lock state, and the whole world,
    stay as they were, whatever the session flag. *)
Theorem handleSettingsUpdate_env_only w :
  passwordAccess (settingsStore w) = false ->
  hasEnvPassword (gate w) = true ->
  handleSettingsUpdate w = w
  /\ isLocked (gate (handleSettingsUpdate w)) = isLocked (gate w).
Proof.
  intros Hpa Henv. unfold handleSettingsUpdate. rewrite Hpa, Henv. cbn. auto.
Qed.

(** C3.  When the candidate is one of the local access passwords, the
    component unlocks, the session flag is set to ["true"], the error flag is
    cleared and no effect is performed, in particular no network request,
    whatever the server would have answered. *)
Theorem handleUnlock_local server w :
  password (gate w) ∈ accessPasswords (settingsStore w) ->
  let w' := handleUnlock server w in
  isLocked (gate w') = false
  /\ sessionStorage w' !! SESSION_UNLOCKED_KEY = Some "true"%string
  /\ sessionUnlocked w' = true
  /\ error (gate w') = false
  /\ isValidating (gate w') = false
  /\ effects w' = effects w.
Proof.
  intros Hin. unfold handleUnlock. cbn.
  unfold includes. rewrite bool_decide_eq_true_2 by exact Hin.
  cbn. repeat split.
  - apply lookup_insert_eq.
  - unfold sessionUnlocked. cbn. apply bool_decide_eq_true_2, lookup_insert_eq.
Qed.

(** C2.  When the candidate is not a local access password and a server
    password is known, exactly one validation request is sent; on the answer
    [valid: true] the component unlocks, sets the session flag and clears the
    error flag; on the answer [valid: false] or a failed request the lock
    state and the session storage stay as they were (a locked gate stays
    locked) and the error flag is set. *)
Theorem handleUnlock_remote w :
  password (gate w) ∉ accessPasswords (settingsStore w) ->
  hasEnvPassword (gate w) = true ->
  (let w' := handleUnlock (Answered true) w in
   isLocked (gate w') = false
   /\ sessionUnlocked w' = true
   /\ error (gate w') = false
   /\ effects w' = effects w ++ [PostPassword (password (gate w))])
  /\ (forall server, server = Answered false \/ server = RequestFailed ->
      let w' := handleUnlock server w in
      isLocked (gate w') = isLocked (gate w)
      /\ (isLocked (gate w) = true -> isLocked (gate w') = true)
      /\ sessionStorage w' = sessionStorage w
      /\ error (gate w') = true
      /\ effects w' = effects w ++ [PostPassword (password (gate w)); Shake]).
Proof.
  intros Hnin Henv.
  assert (Hinc : includes (accessPasswords (settingsStore w)) (password (gate w)) = false)
    by (unfold includes; apply bool_decide_eq_false_2, Hnin).
  split.
  - unfold handleUnlock. cbn. rewrite Hinc, Henv. cbn. repeat split.
    unfold sessionUnlocked. cbn. apply bool_decide_eq_true_2, lookup_insert_eq.
  - intros server Hs. unfold handleUnlock. cbn. rewrite Hinc, Henv.
    destruct Hs as [-> | ->]; cbn; rewrite <- ?app_assoc; repeat split; auto.
Qed.

End GateClaims.

(** ** useSubscriptionSync *)

Section SyncProperties.

Context {Source Rest : Type}.
Variable mergeSources : list Source -> list Source -> list Source.
Variable network : nat -> string -> option (@FetchResult Source).
Variable clock : nat -> Z.

Local Abbreviation World := (@SyncWorld Source Rest).
Local Abbreviation syncStep := (@sync_step Source Rest mergeSources network clock).
Local Abbreviation syncLoop := (@sync_loop Source Rest mergeSources network clock).
Local Abbreviation syncBatch := (@sync Source Rest mergeSources network clock).
Local Abbreviation stampSub := (@stamp Source Rest clock).
Local Abbreviation merged := (@mergeResult Source mergeSources).
Local Abbreviation outcomes := (@outcomesFrom Source network).
Local Abbreviation stamped := (stampedIn clock).
Local Abbreviation hasStamp := (stampRecorded clock).

Implicit Types (w : World) (acc : @Acc Source) (sub : Subscription).
Implicit Types (l : list Subscription).

(** *** The merges *)

Lemma mergeResult_subscriptions r acc :
  updatedSubscriptions (merged r acc) = updatedSubscriptions acc.
Proof.
  unfold mergeResult.
  destruct (nonEmpty (normalSources r)), (nonEmpty (result_premiumSources r)); reflexivity.
Qed.

Lemma mergeResult_anyChanged r acc :
  anyChanged (merged r acc) = anyChanged acc || gotSources (Some r).
Proof.
  unfold mergeResult, gotSources.
  destruct (nonEmpty (normalSources r)), (nonEmpty (result_premiumSources r));
    cbn; rewrite ?orb_true_r, ?orb_false_r; reflexivity.
Qed.

Lemma mergeResult_nothing r acc :
  gotSources (Some r) = false -> merged r acc = acc.
Proof.
  unfold mergeResult, gotSources.
  destruct (nonEmpty (normalSources r)), (nonEmpty (result_premiumSources r));
    cbn; congruence.
Qed.

(** *** The timestamp update *)

Lemma stamp_found sub acc w i old :
  findIndex sub (updatedSubscriptions acc) = Some (i, old) ->
  stampSub sub acc w
  = (mkAcc (anyChanged acc) (currentSources acc) (currentPremiumSources acc)
           (<[i := withLastUpdated (clock (clockReads w)) old]> (updatedSubscriptions acc)),
     ticked w).
Proof. intros H. unfold stamp. rewrite H. reflexivity. Qed.

Lemma stamp_missing sub acc w :
  findIndex sub (updatedSubscriptions acc) = None -> stampSub sub acc w = (acc, w).
Proof. intros H. unfold stamp. rewrite H. reflexivity. Qed.

Lemma findIndex_Some sub l i old :
  findIndex sub l = Some (i, old) -> l !! i = Some old /\ id old = id sub.
Proof. unfold findIndex. intros H. apply list_find_Some in H. tauto. Qed.

(** With unique ids the search finds the subscription itself. *)
Lemma findIndex_NoDup sub l i :
  NoDup (id <$> l) -> l !! i = Some sub -> findIndex sub l = Some (i, sub).
Proof.
  intros Hnd Hi. unfold findIndex. apply list_find_Some.
  split; [exact Hi|]. split; [reflexivity|].
  intros j y Hj Hlt Hid.
  assert (i = j); [|lia].
  apply (NoDup_lookup (id <$> l) i j (id sub) Hnd).
  - rewrite list_lookup_fmap, Hi. reflexivity.
  - rewrite list_lookup_fmap, Hj. cbn. congruence.
Qed.

Lemma findIndex_present sub l s :
  s ∈ l -> id s = id sub -> exists i old, findIndex sub l = Some (i, old).
Proof.
  intros Hin Hid.
  destruct (list_find_elem_of (fun s => id s = id sub) l s Hin Hid) as [[i old] H].
  exists i, old. exact H.
Qed.

(** *** One iteration *)

Lemma sync_step_ok acc sub w r :
  network (length (fetched w)) (url sub) = Some r ->
  syncStep acc sub w = stampSub sub (merged r acc) (requested (url sub) w).
Proof.
  intros H. unfold sync_step, bind, fetchSourcesFromUrl. rewrite H. reflexivity.
Qed.

Lemma sync_step_failed acc sub w :
  network (length (fetched w)) (url sub) = None ->
  syncStep acc sub w = (acc, complained (name sub) (requested (url sub) w)).
Proof.
  intros H. unfold sync_step, bind, fetchSourcesFromUrl. rewrite H. reflexivity.
Qed.

(** *** Timestamps kept or replaced *)

Lemma sameSubscription_refl s : sameSubscription s s.
Proof. unfold sameSubscription. auto. Qed.

Lemma sameSubscription_trans s s' s'' :
  sameSubscription s s' -> sameSubscription s' s'' -> sameSubscription s s''.
Proof. unfold sameSubscription. intuition congruence. Qed.

Lemma sameSubscription_withLastUpdated t s : sameSubscription s (withLastUpdated t s).
Proof. unfold sameSubscription. cbn. auto. Qed.

Lemma stampedIn_refl lo hi s : stamped lo hi s s.
Proof. split; [apply sameSubscription_refl | left; reflexivity]. Qed.

Lemma stampedIn_trans lo mid hi s s' s'' :
  (lo <= mid)%nat -> (mid <= hi)%nat ->
  stamped lo mid s s' -> stamped mid hi s' s'' -> stamped lo hi s s''.
Proof.
  intros Hlo Hhi [Hs1 H1] [Hs2 H2].
  split; [eapply sameSubscription_trans; eassumption|].
  destruct H2 as [H2 | (k & Hk & H2)].
  - rewrite H2. destruct H1 as [H1 | (k & Hk & H1)]; [left; exact H1|].
    right. exists k. split; [lia | exact H1].
  - right. exists k. split; [lia | exact H2].
Qed.

Lemma Forall2_stampedIn_refl lo hi l : Forall2 (stamped lo hi) l l.
Proof. induction l; constructor; auto using stampedIn_refl. Qed.

Lemma Forall2_stampedIn_trans lo mid hi l l' l'' :
  (lo <= mid)%nat -> (mid <= hi)%nat ->
  Forall2 (stamped lo mid) l l' -> Forall2 (stamped mid hi) l' l'' ->
  Forall2 (stamped lo hi) l l''.
Proof.
  intros Hlo Hhi. apply Forall2_trans. intros x y z. apply stampedIn_trans; assumption.
Qed.

(** Replacing the entry at [i] by its stamped copy. *)
Lemma Forall2_stampedIn_insert n l i old :
  l !! i = Some old ->
  Forall2 (stamped n (S n)) l (<[i := withLastUpdated (clock n) old]> l).
Proof.
  intros Hi.
  rewrite <- (list_insert_id l i old Hi) at 1.
  apply Forall2_insert; [apply Forall2_stampedIn_refl|].
  split; [apply sameSubscription_withLastUpdated|].
  right. exists n. split; [lia | reflexivity].
Qed.

(** *** What one iteration does *)

Lemma sync_step_spec acc sub w :
  let o := network (length (fetched w)) (url sub) in
  let acc' := (syncStep acc sub w).1 in
  let w' := (syncStep acc sub w).2 in
  store w' = store w
  /\ saves w' = saves w
  /\ fetched w' = fetched w ++ [url sub]
  /\ (clockReads w <= clockReads w')%nat
  /\ Forall2 (stamped (clockReads w) (clockReads w'))
             (updatedSubscriptions acc) (updatedSubscriptions acc')
  /\ anyChanged acc' = anyChanged acc || gotSources o
  /\ (gotSources o = false ->
      currentSources acc' = currentSources acc
      /\ currentPremiumSources acc' = currentPremiumSources acc).
Proof.
  cbn zeta. destruct (network (length (fetched w)) (url sub)) as [r|] eqn:Hnet.
  - rewrite (sync_step_ok _ _ _ _ Hnet).
    destruct (findIndex sub (updatedSubscriptions (merged r acc))) as [[i old]|] eqn:Hfind.
    + rewrite (stamp_found _ _ _ _ _ Hfind). cbn.
      rewrite mergeResult_subscriptions in *.
      apply findIndex_Some in Hfind as [Hi _].
      repeat split; auto using mergeResult_anyChanged, Forall2_stampedIn_insert.
      all: rewrite mergeResult_nothing by assumption; reflexivity.
    + rewrite (stamp_missing _ _ _ Hfind). cbn.
      rewrite mergeResult_subscriptions.
      repeat split; auto using mergeResult_anyChanged, Forall2_stampedIn_refl.
      all: rewrite mergeResult_nothing by assumption; reflexivity.
  - rewrite (sync_step_failed _ _ _ Hnet). cbn.
    rewrite orb_false_r. repeat split; auto using Forall2_stampedIn_refl.
Qed.

(** *** What the loop does *)

Lemma sync_loop_cons sub l acc w :
  syncLoop (sub :: l) acc w
  = syncLoop l (syncStep acc sub w).1 (syncStep acc sub w).2.
Proof.
  cbn [sync_loop]. unfold bind. destruct (syncStep acc sub w). reflexivity.
Qed.

Lemma sync_loop_spec l : forall acc w,
  let os := outcomes (length (fetched w)) l in
  let acc' := (syncLoop l acc w).1 in
  let w' := (syncLoop l acc w).2 in
  store w' = store w
  /\ saves w' = saves w
  /\ fetched w' = fetched w ++ (url <$> l)
  /\ (clockReads w <= clockReads w')%nat
  /\ Forall2 (stamped (clockReads w) (clockReads w'))
             (updatedSubscriptions acc) (updatedSubscriptions acc')
  /\ anyChanged acc' = anyChanged acc || existsb gotSources os
  /\ (existsb gotSources os = false ->
      currentSources acc' = currentSources acc
      /\ currentPremiumSources acc' = currentPremiumSources acc).
Proof.
  induction l as [|sub l IH]; intros acc w; cbn zeta.
  - cbn. rewrite app_nil_r, orb_false_r.
    repeat split; auto using Forall2_stampedIn_refl.
  - rewrite sync_loop_cons.
    pose proof (sync_step_spec acc sub w) as (Hst & Hsv & Hf & Hc & Hs & Ha & Hn).
    cbn zeta in *.
    set (acc1 := (syncStep acc sub w).1) in *.
    set (w1 := (syncStep acc sub w).2) in *.
    pose proof (IH acc1 w1) as (Hst' & Hsv' & Hf' & Hc' & Hs' & Ha' & Hn').
    cbn zeta in *.
    assert (Hlen : length (fetched w1) = S (length (fetched w)))
      by (rewrite Hf, length_app; cbn; lia).
    rewrite Hlen in *. cbn [outcomesFrom existsb fmap list_fmap].
    split; [congruence|]. split; [congruence|].
    split; [rewrite Hf', Hf, <- app_assoc; reflexivity|].
    split; [lia|].
    split; [eapply Forall2_stampedIn_trans; [| |exact Hs|exact Hs']; assumption|].
    split; [rewrite Ha', Ha, orb_assoc; reflexivity|].
    intros Hquiet. apply orb_false_iff in Hquiet as [H1 H2].
    destruct (Hn H1) as [Hs1 Hp1]. destruct (Hn' H2) as [Hs2 Hp2].
    split; congruence.
Qed.

(** *** The whole of [sync] *)

Lemma sync_unfold subs w :
  syncBatch subs w
  = if (length (filter active subs) =? 0)%nat then (tt, w)
    else
      let r := syncLoop (filter active subs) (initialAcc (store w) subs) w in
      if anyChanged r.1 then (tt, stored (savedSettings (store w) r.1) r.2)
      else (tt, r.2).
Proof.
  unfold sync. destruct (length (filter active subs) =? 0)%nat; [reflexivity|].
  unfold bind, getSettings, sync_finish, saveSettings, ret. cbn zeta.
  destruct (syncLoop _ _ w) as [acc w1]. cbn.
  destruct (anyChanged acc); reflexivity.
Qed.

Lemma outcomes_quiet n l :
  (forall k sub, l !! k = Some sub -> gotSources (network (n + k) (url sub)) = false) ->
  existsb gotSources (outcomes n l) = false.
Proof.
  revert n. induction l as [|sub l IH]; intros n H; [reflexivity|].
  cbn. apply orb_false_iff. split.
  - specialize (H 0%nat sub eq_refl). rewrite Nat.add_0_r in H. exact H.
  - apply IH. intros k sub' Hk. specialize (H (S k) sub' Hk).
    rewrite Nat.add_succ_r in H. exact H.
Qed.

(** The loop saves nothing: a batch makes a [saveSettings] call exactly when
    the loop ends with [anyChanged] set. *)
Lemma sync_saves subs w :
  let os := outcomes (length (fetched w)) (filter active subs) in
  let acc := (syncLoop (filter active subs) (initialAcc (store w) subs) w).1 in
  let w' := (syncBatch subs w).2 in
  anyChanged acc = existsb gotSources os
  /\ clockReads w' = clockReads (syncLoop (filter active subs) (initialAcc (store w) subs) w).2
  /\ (clockReads w <= clockReads w')%nat
  /\ Forall2 (stamped (clockReads w) (clockReads w')) subs (updatedSubscriptions acc)
  /\ (anyChanged acc = true ->
      saves w' = saves w ++ [savedSettings (store w) acc]
      /\ store w' = savedSettings (store w) acc)
  /\ (anyChanged acc = false -> saves w' = saves w /\ store w' = store w).
Proof.
  cbn zeta. rewrite sync_unfold.
  pose proof (sync_loop_spec (filter active subs) (initialAcc (store w) subs) w)
    as (Hst & Hsv & _ & Hc & Hs & Ha & _).
  cbn zeta in *. cbn [anyChanged initialAcc updatedSubscriptions orb] in *.
  destruct (length (filter active subs) =? 0)%nat eqn:Hlen.
  - apply Nat.eqb_eq, nil_length_inv in Hlen. rewrite Hlen in *. cbn in *.
    repeat split; auto using Forall2_stampedIn_refl. all: discriminate.
  - cbn zeta. split; [exact Ha|].
    destruct (anyChanged _) eqn:Hany; cbn.
    + repeat split; auto. all: try discriminate. rewrite Hsv. reflexivity.
    + repeat split; auto. all: discriminate.
Qed.

(** *** The claims on a sync batch *)

(** C5.  A batch makes exactly one [saveSettings] call when some fetch
    succeeded with a non-empty normal or premium list, which is when the
    loop merges into a source list and sets [anyChanged]; the call carries
    the settings read before the loop with [sources], [premiumSources] and
    [subscriptions] replaced by the three locals of the loop.  Otherwise it
    makes no [saveSettings] call, the store is as it was, and both source
    lists of the loop are still the stored ones. *)
Theorem sync_single_save subs w :
  let acc := (syncLoop (filter active subs) (initialAcc (store w) subs) w).1 in
  let w' := (syncBatch subs w).2 in
  if existsb gotSources (outcomes (length (fetched w)) (filter active subs))
  then
    saves w' = saves w ++ [store w']
    /\ sources (store w') = currentSources acc
    /\ premiumSources (store w') = currentPremiumSources acc
    /\ subscriptions (store w') = updatedSubscriptions acc
    /\ passwordAccess (store w') = passwordAccess (store w)
    /\ accessPasswords (store w') = accessPasswords (store w)
    /\ rest (store w') = rest (store w)
  else
    saves w' = saves w
    /\ store w' = store w
    /\ currentSources acc = sources (store w)
    /\ currentPremiumSources acc = premiumSources (store w).
Proof.
  cbn zeta.
  pose proof (sync_saves subs w) as (Ha & _ & _ & _ & Hyes & Hno). cbn zeta in *.
  pose proof (sync_loop_spec (filter active subs) (initialAcc (store w) subs) w)
    as (_ & _ & _ & _ & _ & _ & Hsame). cbn zeta in *.
  destruct (existsb gotSources _) eqn:Hex.
  - destruct (Hyes Ha) as [Hsv Hst]. rewrite Hsv, Hst. repeat split.
  - destruct (Hno Ha) as [Hsv Hst]. destruct (Hsame eq_refl) as [Hs Hp].
    repeat split; assumption.
Qed.

Lemma stampRecorded_kept x lo mid n hi l l' :
  (lo <= n)%nat -> (mid <= hi)%nat ->
  Forall2 (stamped n hi) l l' -> hasStamp x lo mid l -> hasStamp x lo hi l'.
Proof.
  intros Hlo Hhi HF (i & s & j & Hi & Hid & Hj & Hlu).
  destruct (Forall2_lookup_l _ _ _ _ _ HF Hi) as (s' & Hi' & [Hsame Hst]).
  destruct Hsame as (Hid' & _).
  destruct Hst as [Heq | (k & Hk & Hst)].
  - exists i, s', j. repeat split; [exact Hi'|congruence|lia|lia|congruence].
  - exists i, s', k. repeat split; [exact Hi'|congruence|lia|lia|exact Hst].
Qed.

Lemma present_kept sub lo hi l l' :
  Forall2 (stamped lo hi) l l' ->
  (exists s, s ∈ l /\ id s = id sub) -> exists s, s ∈ l' /\ id s = id sub.
Proof.
  intros HF (s & Hin & Hid).
  apply list_elem_of_lookup in Hin as [i Hi].
  destruct (Forall2_lookup_l _ _ _ _ _ HF Hi) as (s' & Hi' & [(Hid' & _) _]).
  exists s'. split; [apply list_elem_of_lookup; eauto | congruence].
Qed.

(** A fetch that succeeds leaves a stamp in the local copy, and the rest of
    the loop keeps one there. *)
Lemma sync_loop_records l : forall acc w k sub r,
  l !! k = Some sub ->
  network (length (fetched w) + k) (url sub) = Some r ->
  (exists s, s ∈ updatedSubscriptions acc /\ id s = id sub) ->
  hasStamp (id sub) (clockReads w) (clockReads (syncLoop l acc w).2)
           (updatedSubscriptions (syncLoop l acc w).1).
Proof.
  induction l as [|sub0 l IH]; intros acc w k sub r Hk Hnet Hpres; [discriminate|].
  rewrite sync_loop_cons.
  pose proof (sync_step_spec acc sub0 w) as (_ & _ & Hf & Hc & Hs & _).
  cbn zeta in *.
  pose proof (sync_loop_spec l (syncStep acc sub0 w).1 (syncStep acc sub0 w).2)
    as (_ & _ & _ & Hc' & Hs' & _).
  cbn zeta in *.
  destruct k as [|k]; cbn in Hk.
  - injection Hk as ->. rewrite Nat.add_0_r in Hnet.
    eapply stampRecorded_kept; [exact Hc | exact Hc' | exact Hs' |].
    rewrite (sync_step_ok _ _ _ _ Hnet).
    destruct Hpres as (s & Hin & Hid).
    rewrite <- (mergeResult_subscriptions r acc) in Hin.
    destruct (findIndex_present sub _ s Hin Hid) as (i & old & Hfind).
    rewrite (stamp_found _ _ _ _ _ Hfind). cbn.
    apply findIndex_Some in Hfind as [Hi Hold].
    exists i, (withLastUpdated (clock (clockReads w)) old), (clockReads w).
    repeat split; [|exact Hold|lia|lia].
    apply list_lookup_insert_eq. eapply lookup_lt_Some, Hi.
  - assert (Hstamp : hasStamp (id sub) (clockReads (syncStep acc sub0 w).2)
                       (clockReads (syncLoop l (syncStep acc sub0 w).1 (syncStep acc sub0 w).2).2)
                       (updatedSubscriptions
                          (syncLoop l (syncStep acc sub0 w).1 (syncStep acc sub0 w).2).1)).
    { eapply IH; [exact Hk | | eapply present_kept; eassumption].
      rewrite Hf, length_app. cbn. rewrite <- Hnet. f_equal. lia. }
    destruct Hstamp as (i & s & j & Hi & Hid & Hj & Hlu).
    exists i, s, j. repeat split; [exact Hi|exact Hid|lia|lia|exact Hlu].
Qed.

(** C9.  When every fetch that succeeds returns an empty normal list and an
    empty premium list, the batch makes no [saveSettings] call and the store
    is as it was; the timestamps are in the local copy only: for every
    active subscription whose fetch succeeded, the local copy holds an entry
    with its id that carries a clock reading taken during the batch. *)
Theorem sync_empty_results_discard_stamps subs w :
  (forall k sub r,
      filter active subs !! k = Some sub ->
      network (length (fetched w) + k) (url sub) = Some r ->
      normalSources r = [] /\ result_premiumSources r = []) ->
  let acc := (syncLoop (filter active subs) (initialAcc (store w) subs) w).1 in
  let w' := (syncBatch subs w).2 in
  saves w' = saves w
  /\ store w' = store w
  /\ (forall k sub r,
        filter active subs !! k = Some sub ->
        network (length (fetched w) + k) (url sub) = Some r ->
        exists i s j,
          updatedSubscriptions acc !! i = Some s
          /\ id s = id sub
          /\ (clockReads w <= j < clockReads w')%nat
          /\ lastUpdated s = Some (clock j)).
Proof.
  intros Hempty. cbn zeta.
  pose proof (sync_saves subs w) as (Ha & Hclk & _ & _ & _ & Hno). cbn zeta in *.
  assert (Hq : existsb gotSources (outcomes (length (fetched w)) (filter active subs)) = false).
  { apply outcomes_quiet. intros k sub Hk.
    destruct (network (length (fetched w) + k) (url sub)) as [r|] eqn:Hnet; [|reflexivity].
    destruct (Hempty k sub r Hk Hnet) as [Hn Hp]. cbn. rewrite Hn, Hp. reflexivity. }
  rewrite Hq in Ha. destruct (Hno Ha) as [Hsv Hst].
  split; [exact Hsv|]. split; [exact Hst|].
  intros k sub r Hk Hnet. rewrite Hclk.
  apply (sync_loop_records (filter active subs) (initialAcc (store w) subs) w k sub r Hk Hnet).
  exists sub. split; [|reflexivity].
  apply list_elem_of_lookup_2 in Hk. apply list_elem_of_filter in Hk. tauto.
Qed.

Lemma notEarlier_refl s : notEarlier s s.
Proof. split; [reflexivity | left; reflexivity]. Qed.

Lemma Forall2_notEarlier_refl l : Forall2 notEarlier l l.
Proof. induction l; constructor; auto using notEarlier_refl. Qed.

(** Under a clock that does not run backwards, a stamp taken from reading
    [lo] on is no earlier than a timestamp that reading [lo] has reached. *)
Lemma stampedIn_notEarlier lo hi s s' :
  (forall j k, (j <= k)%nat -> clock j <= clock k) ->
  (forall u, lastUpdated s = Some u -> u <= clock lo) ->
  stamped lo hi s s' -> notEarlier s s'.
Proof.
  intros Hmono Hpast [(Hid & _) Hst]. split; [exact Hid|].
  destruct Hst as [Heq | (k & Hk & Hst)]; [left; exact Heq|].
  right. exists (clock k). split; [exact Hst|].
  intros u Hu. specialize (Hpast u Hu). specialize (Hmono lo k). lia.
Qed.

Lemma stampedIn_upTo lo hi l l' :
  (forall j k, (j <= k)%nat -> clock j <= clock k) ->
  (lo <= hi)%nat ->
  stampsUpTo (clock lo) l ->
  Forall2 (stamped lo hi) l l' -> stampsUpTo (clock hi) l'.
Proof.
  intros Hmono Hle Hpast HF s' u Hin Hu.
  apply list_elem_of_lookup in Hin as [i Hi].
  destruct (Forall2_lookup_r _ _ _ _ _ HF Hi) as (s & Hi0 & [_ Hst]).
  destruct Hst as [Heq | (k & Hk & Hst)].
  - assert (u <= clock lo).
    { apply (Hpast s u); [eapply list_elem_of_lookup_2, Hi0 | congruence]. }
    specialize (Hmono lo hi). lia.
  - assert (u = clock k) by congruence. subst u.
    apply Hmono. lia.
Qed.

(** C8.  Under a clock that does not run backwards, for a batch that starts
    from the stored subscription list whose timestamps the clock has
    reached: every subscription of the store keeps its id and place, and
    its [lastUpdated] after the batch is the one before or a timestamp that
    is no earlier; the timestamps of the store are again ones the clock has
    reached, so the same holds for the next batch. *)
Theorem lastUpdated_monotone subs w :
  (forall j k, (j <= k)%nat -> clock j <= clock k) ->
  subs = subscriptions (store w) ->
  stampsUpTo (clock (clockReads w)) subs ->
  let w' := (syncBatch subs w).2 in
  Forall2 notEarlier (subscriptions (store w)) (subscriptions (store w'))
  /\ stampsUpTo (clock (clockReads w')) (subscriptions (store w')).
Proof.
  intros Hmono Hsubs Hpast. cbn zeta.
  pose proof (sync_saves subs w) as (_ & _ & Hc & HF & Hyes & Hno). cbn zeta in *.
  destruct (anyChanged (syncLoop (filter active subs) (initialAcc (store w) subs) w).1).
  - destruct (Hyes eq_refl) as [_ Hst]. rewrite Hst. cbn [subscriptions savedSettings].
    rewrite <- Hsubs. split.
    + apply Forall2_same_length_lookup_2; [eapply Forall2_length, HF|].
      intros i x y Hx Hy.
      eapply stampedIn_notEarlier; [exact Hmono | | eapply Forall2_lookup_lr; eassumption].
      intros u Hu. apply (Hpast x u); [eapply list_elem_of_lookup_2, Hx | exact Hu].
    + eapply stampedIn_upTo; eassumption.
  - destruct (Hno eq_refl) as [_ Hst]. rewrite Hst, <- Hsubs. split.
    + apply Forall2_notEarlier_refl.
    + intros s u Hin Hu. specialize (Hpast s u Hin Hu).
      specialize (Hmono _ _ Hc). lia.
Qed.

Lemma notEarlier_trans s s' s'' :
  notEarlier s s' -> notEarlier s' s'' -> notEarlier s s''.
Proof.
  intros [Hid1 H1] [Hid2 H2]. split; [congruence|].
  destruct H2 as [H2 | (u'' & Hu'' & H2)].
  - rewrite H2. exact H1.
  - right. exists u''. split; [exact Hu''|]. intros u Hu.
    destruct H1 as [H1 | (u' & Hu' & H1)].
    + apply H2. congruence.
    + specialize (H1 u Hu). specialize (H2 u' Hu'). lia.
Qed.

(** Round after round the stored timestamps never go back. *)
Lemma rounds_monotone n : forall w,
  (forall j k, (j <= k)%nat -> clock j <= clock k) ->
  stampsUpTo (clock (clockReads w)) (subscriptions (store w)) ->
  Forall2 notEarlier (subscriptions (store w))
          (subscriptions (store (rounds mergeSources network clock n w)))
  /\ stampsUpTo (clock (clockReads (rounds mergeSources network clock n w)))
                (subscriptions (store (rounds mergeSources network clock n w))).
Proof.
  induction n as [|n IH]; intros w Hmono Hpast; cbn [rounds].
  - split; [apply Forall2_notEarlier_refl | exact Hpast].
  - destruct (sync_saves (subscriptions (store w)) w) as (_ & _ & Hc & HF & Hyes & Hno).
    cbn zeta in *.
    set (w1 := (syncBatch (subscriptions (store w)) w).2) in *.
    assert (H1 : Forall2 notEarlier (subscriptions (store w)) (subscriptions (store w1))
                 /\ stampsUpTo (clock (clockReads w1)) (subscriptions (store w1))).
    { destruct (anyChanged _).
      - destruct (Hyes eq_refl) as [_ Hst]. rewrite Hst. cbn [subscriptions savedSettings].
        split; [|eapply stampedIn_upTo; eassumption].
        apply Forall2_same_length_lookup_2; [eapply Forall2_length, HF|].
        intros i x y Hx Hy.
        eapply stampedIn_notEarlier; [exact Hmono | | eapply Forall2_lookup_lr; eassumption].
        intros u Hu. apply (Hpast x u); [eapply list_elem_of_lookup_2, Hx | exact Hu].
      - destruct (Hno eq_refl) as [_ Hst]. rewrite Hst.
        split; [apply Forall2_notEarlier_refl|].
        intros s u Hin Hu. specialize (Hpast s u Hin Hu).
        specialize (Hmono _ _ Hc). lia. }
    destruct H1 as [H1 H1']. destruct (IH w1 Hmono H1') as [H2 H2'].
    split; [|exact H2'].
    eapply Forall2_trans; [|exact H1|exact H2]. apply notEarlier_trans.
Qed.

(** One run of [sync] requests every active subscription once, in order. *)
Lemma sync_fetches_each_once subs w :
  fetched (syncBatch subs w).2 = fetched w ++ (url <$> filter active subs).
Proof.
  rewrite sync_unfold.
  pose proof (sync_loop_spec (filter active subs) (initialAcc (store w) subs) w)
    as (_ & _ & Hf & _). cbn zeta in *.
  destruct (length (filter active subs) =? 0)%nat eqn:Hlen.
  - apply Nat.eqb_eq, nil_length_inv in Hlen. rewrite Hlen. cbn. rewrite app_nil_r.
    reflexivity.
  - cbn zeta. destruct (anyChanged _); exact Hf.
Qed.

(** Stamping an entry keeps the ids of the list. *)
Lemma ids_insert_stamp l i old t :
  l !! i = Some old -> id <$> <[i := withLastUpdated t old]> l = id <$> l.
Proof.
  intros Hi. rewrite list_fmap_insert. cbn.
  apply list_insert_id. rewrite list_lookup_fmap, Hi. reflexivity.
Qed.

(** C4.  A batch over a list with unique ids whose active subscriptions are
    [a], [b] and [c], where the fetches of [a] and [c] succeed with a
    non-empty normal or premium list and the fetch of [b] fails: all three
    are requested, the failure of [b] is logged, and one [saveSettings] call
    is made.  The saved source lists are the stored ones with the results of
    [a] and then of [c] merged in; the saved subscription list is the one of
    the render with [lastUpdated] of [a] and of [c] set to the first and the
    second clock reading of the batch, every other entry, that of [b]
    included, as it was. *)
Theorem sync_isolates_failure subs a b c ra rc w :
  NoDup (id <$> subs) ->
  filter active subs = [a; b; c] ->
  network (length (fetched w)) (url a) = Some ra ->
  network (S (length (fetched w))) (url b) = None ->
  network (S (S (length (fetched w)))) (url c) = Some rc ->
  gotSources (Some ra) = true ->
  gotSources (Some rc) = true ->
  let t0 := clock (clockReads w) in
  let t1 := clock (S (clockReads w)) in
  let acc := merged rc (merged ra (initialAcc (store w) subs)) in
  let w' := (syncBatch subs w).2 in
  exists ia ib ic,
    subs !! ia = Some a /\ subs !! ib = Some b /\ subs !! ic = Some c
    /\ fetched w' = fetched w ++ [url a; url b; url c]
    /\ errorLog w' = errorLog w ++ [name b]
    /\ saves w' = saves w ++ [store w']
    /\ sources (store w') = currentSources acc
    /\ premiumSources (store w') = currentPremiumSources acc
    /\ (nonEmpty (normalSources ra) = true -> nonEmpty (normalSources rc) = true ->
        sources (store w')
        = mergeSources (mergeSources (sources (store w)) (normalSources ra))
                       (normalSources rc))
    /\ (nonEmpty (result_premiumSources ra) = true ->
        nonEmpty (result_premiumSources rc) = true ->
        premiumSources (store w')
        = mergeSources (mergeSources (premiumSources (store w)) (result_premiumSources ra))
                       (result_premiumSources rc))
    /\ subscriptions (store w')
       = <[ic := withLastUpdated t1 c]> (<[ia := withLastUpdated t0 a]> subs)
    /\ subscriptions (store w') !! ia = Some (withLastUpdated t0 a)
    /\ subscriptions (store w') !! ib = Some b
    /\ subscriptions (store w') !! ic = Some (withLastUpdated t1 c)
    /\ (forall i s, subs !! i = Some s -> i <> ia -> i <> ic ->
        subscriptions (store w') !! i = Some s).
Proof.
  intros Hnd Hact Ha Hb Hc Hga Hgc. cbn zeta.
  (* the three subscriptions sit at three different places *)
  assert (Hin : forall x, x ∈ [a; b; c] -> exists i, subs !! i = Some x).
  { intros x Hx. rewrite <- Hact in Hx. apply list_elem_of_filter in Hx as [_ Hx].
    apply list_elem_of_lookup in Hx. exact Hx. }
  destruct (Hin a) as [ia Hia]; [set_solver|].
  destruct (Hin b) as [ib Hib]; [set_solver|].
  destruct (Hin c) as [ic Hic]; [set_solver|].
  assert (Hids : NoDup (id <$> [a; b; c])).
  { eapply sublist_NoDup; [exact Hnd|]. rewrite <- Hact.
    apply fmap_sublist, sublist_filter. }
  cbn in Hids. apply NoDup_cons in Hids as [Hab Hids].
  apply NoDup_cons in Hids as [Hbc _].
  assert (Hac : id a <> id c) by set_solver.
  assert (Hab' : id a <> id b) by set_solver.
  assert (Hbc' : id b <> id c) by set_solver.
  assert (ia <> ic) by (intros ->; congruence).
  assert (ia <> ib) by (intros ->; congruence).
  assert (ib <> ic) by (intros ->; congruence).
  exists ia, ib, ic. split; [exact Hia|]. split; [exact Hib|]. split; [exact Hic|].
  (* the three iterations *)
  set (acc0 := initialAcc (store w) subs).
  set (acc1 := mkAcc (anyChanged (merged ra acc0)) (currentSources (merged ra acc0))
                     (currentPremiumSources (merged ra acc0))
                     (<[ia := withLastUpdated (clock (clockReads w)) a]> subs)).
  set (w1 := ticked (requested (url a) w)).
  assert (E1 : syncStep acc0 a w = (acc1, w1)).
  { rewrite (sync_step_ok _ _ _ _ Ha).
    rewrite (stamp_found a (merged ra acc0) _ ia a).
    - subst acc1. rewrite mergeResult_subscriptions. reflexivity.
    - rewrite mergeResult_subscriptions. apply findIndex_NoDup; assumption. }
  set (w2 := complained (name b) (requested (url b) w1)).
  assert (E2 : syncStep acc1 b w1 = (acc1, w2)).
  { apply sync_step_failed. subst w1. cbn. rewrite length_app. cbn.
    rewrite Nat.add_1_r. exact Hb. }
  set (acc3 := mkAcc (anyChanged (merged rc acc1)) (currentSources (merged rc acc1))
                     (currentPremiumSources (merged rc acc1))
                     (<[ic := withLastUpdated (clock (S (clockReads w))) c]>
                        (<[ia := withLastUpdated (clock (clockReads w)) a]> subs))).
  set (w3 := ticked (requested (url c) w2)).
  assert (E3 : syncStep acc1 c w2 = (acc3, w3)).
  { rewrite (sync_step_ok _ _ _ rc).
    - rewrite (stamp_found c (merged rc acc1) _ ic c).
      + subst acc3. rewrite mergeResult_subscriptions. reflexivity.
      + rewrite mergeResult_subscriptions. subst acc1. cbn.
        apply findIndex_NoDup.
        * rewrite (ids_insert_stamp _ _ _ _ Hia). exact Hnd.
        * rewrite list_lookup_insert_ne by assumption. exact Hic.
    - subst w2 w1. cbn. rewrite !length_app. cbn.
      rewrite !Nat.add_1_r. exact Hc. }
  assert (EL : syncLoop [a; b; c] acc0 w = (acc3, w3)).
  { rewrite sync_loop_cons, E1. cbn [fst snd].
    rewrite sync_loop_cons, E2. cbn [fst snd].
    rewrite sync_loop_cons, E3. reflexivity. }
  assert (Hany : anyChanged acc3 = true).
  { subst acc3. cbn. rewrite mergeResult_anyChanged, Hgc. apply orb_true_r. }
  assert (Hmerge : merged rc acc1
                   = mkAcc (anyChanged (merged rc (merged ra acc0)))
                           (currentSources (merged rc (merged ra acc0)))
                           (currentPremiumSources (merged rc (merged ra acc0)))
                           (updatedSubscriptions acc1)).
  { subst acc1. unfold mergeResult. cbn.
    destruct (nonEmpty (normalSources ra)), (nonEmpty (result_premiumSources ra)),
      (nonEmpty (normalSources rc)), (nonEmpty (result_premiumSources rc)); reflexivity. }
  rewrite sync_unfold, Hact. cbn [length Nat.eqb]. cbn zeta.
  fold acc0. rewrite EL. cbn [fst snd]. rewrite Hany. cbn [fst snd].
  assert (Hsubs : subscriptions (store (stored (savedSettings (store w) acc3) w3))
                  = <[ic := withLastUpdated (clock (S (clockReads w))) c]>
                      (<[ia := withLastUpdated (clock (clockReads w)) a]> subs))
    by reflexivity.
  split; [subst w3 w2 w1; cbn; rewrite <- !app_assoc; reflexivity|].
  split; [reflexivity|].
  split; [subst w3 w2 w1; reflexivity|].
  split; [subst acc3; cbn; rewrite Hmerge; reflexivity|].
  split; [subst acc3; cbn; rewrite Hmerge; reflexivity|].
  split.
  { intros Hna Hnc. subst acc3. cbn. rewrite Hmerge. cbn.
    unfold mergeResult. rewrite Hna, Hnc. cbn.
    destruct (nonEmpty (result_premiumSources ra)), (nonEmpty (result_premiumSources rc));
      reflexivity. }
  split.
  { intros Hpa Hpc. subst acc3. cbn. rewrite Hmerge. cbn.
    unfold mergeResult. rewrite Hpa, Hpc. cbn.
    destruct (nonEmpty (normalSources ra)), (nonEmpty (normalSources rc)); reflexivity. }
  split; [exact Hsubs|]. rewrite Hsubs.
  assert (Hlia : (ia < length subs)%nat) by (eapply lookup_lt_Some, Hia).
  assert (Hlic : (ic < length subs)%nat) by (eapply lookup_lt_Some, Hic).
  split.
  { rewrite list_lookup_insert_ne by auto. apply list_lookup_insert_eq, Hlia. }
  split.
  { rewrite !list_lookup_insert_ne by auto. exact Hib. }
  split.
  { apply list_lookup_insert_eq. rewrite length_insert. exact Hlic. }
  intros i s Hi Hnia Hnic. rewrite !list_lookup_insert_ne by auto. exact Hi.
Qed.

End SyncProperties.

(** ** The debounce *)

Section DebounceProperties.

Implicit Types (t : Timers) (e d : Z).

(** A change leaves exactly one pending timer, due one second later. *)
Lemma subscriptionsChanged_arms t :
  cleanupCovers t ->
  pending (subscriptionsChanged t) = [(nextId t, now t + 1000)]
  /\ timeoutId (subscriptionsChanged t) = Some (nextId t)
  /\ now (subscriptionsChanged t) = now t
  /\ launches (subscriptionsChanged t) = launches t.
Proof.
  unfold cleanupCovers, subscriptionsChanged, cleanupSync.
  destruct (timeoutId t) as [i|] eqn:Hid; intros Hcov.
  - assert (Hnil : filter (fun p : nat * Z => p.1 ≠ i) (pending t) = []).
    { induction Hcov as [|p l Hp _ IH]; [reflexivity|].
      rewrite filter_cons_False by (intros Hne; apply Hne, Hp). exact IH. }
    unfold armSync, setTimeout, clearTimeout. cbn. rewrite Hnil. auto.
  - unfold armSync, setTimeout. cbn. rewrite Hcov. auto.
Qed.

(** Before the due time nothing happens but the passing of time. *)
Lemma elapse_early t i due e :
  pending t = [(i, due)] -> now t + e < due ->
  pending (elapse e t) = [(i, due)]
  /\ timeoutId (elapse e t) = timeoutId t
  /\ launches (elapse e t) = launches t.
Proof.
  intros Hp Hlt. unfold elapse. cbn. rewrite Hp.
  rewrite filter_cons_True by (cbn; lia).
  rewrite filter_cons_False by (cbn; lia).
  cbn. rewrite app_nil_r. auto.
Qed.

(** From the due time on the timer runs [sync], once. *)
Lemma elapse_due t i due e :
  pending t = [(i, due)] -> due <= now t + e ->
  pending (elapse e t) = []
  /\ launches (elapse e t) = launches t ++ [now t + e].
Proof.
  intros Hp Hle. unfold elapse. cbn. rewrite Hp.
  rewrite filter_cons_False by (cbn; lia).
  rewrite filter_cons_True by (cbn; lia).
  cbn. auto.
Qed.

Lemma elapse_idle t e :
  pending t = [] -> pending (elapse e t) = [] /\ launches (elapse e t) = launches t.
Proof. intros Hp. unfold elapse. cbn. rewrite Hp. cbn. rewrite app_nil_r. auto. Qed.

(** The cleanup always covers what is pending. *)
Lemma cleanupCovers_mount (start : Z) : cleanupCovers (mountSync start).
Proof. unfold cleanupCovers. cbn. repeat constructor. Qed.

Lemma cleanupCovers_step t ev : cleanupCovers t -> cleanupCovers (step t ev).
Proof.
  intros Hcov. destruct ev as [|dt]; cbn [step].
  - destruct (subscriptionsChanged_arms t Hcov) as (Hp & Hi & _).
    unfold cleanupCovers. rewrite Hi, Hp. repeat constructor.
  - unfold cleanupCovers in *. cbn.
    destruct (timeoutId t).
    + apply Forall_forall. intros p Hp. apply list_elem_of_filter in Hp as [_ Hp].
      revert p Hp. apply Forall_forall. exact Hcov.
    + rewrite Hcov. reflexivity.
Qed.

Lemma cleanupCovers_run evs : forall t, cleanupCovers t -> cleanupCovers (run evs t).
Proof.
  induction evs as [|ev evs IH]; intros t Hcov; [exact Hcov|].
  apply IH, cleanupCovers_step, Hcov.
Qed.

Lemma armedSince_changed L t :
  cleanupCovers t -> launches t = L -> armedSince L (subscriptionsChanged t).
Proof.
  intros Hcov HL. destruct (subscriptionsChanged_arms t Hcov) as (Hp & Hi & Hn & Hl).
  split; [congruence|]. exists (nextId t). rewrite Hn. auto.
Qed.

Lemma armedSince_covers L t : armedSince L t -> cleanupCovers t.
Proof.
  intros (_ & i & Hi & Hp). unfold cleanupCovers. rewrite Hi, Hp. repeat constructor.
Qed.

Lemma armedSince_burst L ds : forall t,
  Forall (fun d => 0 <= d < 1000) ds ->
  armedSince L t -> armedSince L (run (burst ds) t).
Proof.
  induction ds as [|d ds IH]; intros t Hds Harm; [exact Harm|].
  apply Forall_cons in Hds as [Hd Hds].
  change (run (burst (d :: ds)) t)
    with (run (burst ds) (subscriptionsChanged (elapse d t))).
  apply IH; [exact Hds|].
  destruct Harm as (HL & i & Hi & Hp).
  destruct (elapse_early t i (now t + 1000) d Hp) as (Hp' & Hi' & Hl'); [lia|].
  apply armedSince_changed; [|congruence].
  unfold cleanupCovers. rewrite Hi', Hi, Hp'. repeat constructor.
Qed.

(** Once armed, the passing of time starts [sync] at most once. *)
Lemma elapses_launch_once es : forall t n,
  (pending t = [] /\ (length (launches t) <= S n)%nat)
  \/ ((exists i due, pending t = [(i, due)]) /\ (length (launches t) <= n)%nat) ->
  (length (launches (run (Elapse <$> es) t)) <= S n)%nat.
Proof.
  induction es as [|e es IH]; intros t n H.
  - cbn. destruct H as [[_ H] | [_ H]]; lia.
  - change (run (Elapse <$> e :: es) t) with (run (Elapse <$> es) (elapse e t)).
    apply IH. destruct H as [[Hp Hl] | [(i & due & Hp) Hl]].
    + left. destruct (elapse_idle t e Hp) as [Hp' Hl']. rewrite Hl'. auto.
    + destruct (decide (due <= now t + e)) as [Hdue | Hearly].
      * left. destruct (elapse_due t i due e Hp Hdue) as [Hp' Hl'].
        rewrite Hl', length_app. cbn. split; [exact Hp' | lia].
      * right. destruct (elapse_early t i due e Hp) as (Hp' & _ & Hl'); [lia|].
        rewrite Hl'. split; [eauto | exact Hl].
Qed.

(** C6.  After a change of the subscription list, followed by any number of
    further changes that each come less than a second after the one before:
    every pending timer but the last was cleared, and no [sync] was started
    during the burst; less than a second after the last change still none
    is; a second or more after it exactly one is, at that time; and however
    time goes on without a further change, at most one [sync], hence at most
    one fetch per subscription, is started for the whole burst. *)
Theorem debounce_single_sync t ds es :
  cleanupCovers t ->
  Forall (fun d => 0 <= d < 1000) ds ->
  let t1 := run (SubscriptionsChanged :: burst ds) t in
  launches t1 = launches t
  /\ (exists i, pending t1 = [(i, now t1 + 1000)])
  /\ (forall e, e < 1000 -> launches (elapse e t1) = launches t)
  /\ (forall e, 1000 <= e -> launches (elapse e t1) = launches t ++ [now t1 + e])
  /\ (length (launches (run (Elapse <$> es) t1)) <= S (length (launches t)))%nat.
Proof.
  intros Hcov Hds. cbn zeta.
  change (run (SubscriptionsChanged :: burst ds) t)
    with (run (burst ds) (subscriptionsChanged t)).
  pose proof (armedSince_burst (launches t) ds (subscriptionsChanged t) Hds
                (armedSince_changed _ t Hcov eq_refl)) as (HL & i & Hi & Hp).
  split; [exact HL|]. split; [eauto|]. split; [|split].
  - intros e He. destruct (elapse_early _ i _ e Hp) as (_ & _ & Hl); [lia|]. congruence.
  - intros e He. destruct (elapse_due _ i _ e Hp) as (_ & Hl); [lia|]. congruence.
  - apply elapses_launch_once. right. split; [eauto | rewrite HL; lia].
Qed.

End DebounceProperties.

(** * The properties at concrete inputs *)

(** ** PasswordGate *)

(** Password access is off, a server password is known, the session flag is
    absent and the gate is open: the subscriber leaves the gate open, where
    the formula of [init] says locked. *)
Lemma handleSettingsUpdate_not_formula :
  let w := exampleWorld false "" true ∅ false [] in
  isLocked (gate (handleSettingsUpdate w)) = false
  /\ lockFormula (passwordAccess (settingsStore w)) (hasEnvPassword (gate w))
                 (sessionUnlocked w) = true
  /\ isLocked (gate (handleSettingsUpdate w))
     <> lockFormula (passwordAccess (settingsStore w)) (hasEnvPassword (gate w))
                    (sessionUnlocked w).
Proof. repeat split. discriminate. Qed.

(** The other way round: password access is on, the session flag is set while
    the gate is closed, which is how a config answer that arrives after a
    successful unlock leaves it; the subscriber keeps the gate closed, where
    the formula says open. *)
Lemma handleSettingsUpdate_after_late_answer :
  let w0 := exampleWorld true "secret" false ∅ true ["secret"%string] in
  let '(c, w1) := init_local false w0 in
  let w2 := handleUnlock RequestFailed w1 in
  let w3 := init_remote exampleSyncEnv c (Some (mkConfigData false None)) w2 in
  let w4 := handleSettingsUpdate w3 in
  isLocked (gate w2) = false
  /\ sessionUnlocked w4 = true
  /\ isLocked (gate w4) = true
  /\ lockFormula (passwordAccess (settingsStore w4)) (hasEnvPassword (gate w4))
                 (sessionUnlocked w4) = false.
Proof. repeat split; reflexivity. Qed.

Lemma init_unlocked_session_witness :
  let w := exampleWorld true "" true unlockedSession true ["secret"%string] in
  let resp := Some (mkConfigData true (Some ["https://env.example/feed"%string])) in
  sessionStorage w !! SESSION_UNLOCKED_KEY = Some "true"%string
  /\ isLocked (gate (init_local true w).2) = false
  /\ isLocked (gate (init exampleSyncEnv true resp w)) = false
  /\ isLocked (gate (init_remote exampleSyncEnv (init_local true w).1 resp
                       (unmount (init_local true w).2))) = false.
Proof.
  cbn zeta. split; [reflexivity|].
  apply (init_unlocked_session exampleSyncEnv true). reflexivity.
Defined.

Lemma handleSettingsUpdate_env_only_witness :
  let w := exampleWorld true "" true ∅ false [] in
  handleSettingsUpdate w = w
  /\ isLocked (gate (handleSettingsUpdate w)) = isLocked (gate w).
Proof.
  cbn zeta. apply handleSettingsUpdate_env_only; reflexivity.
Defined.

Lemma handleUnlock_local_witness :
  let w := exampleWorld true "secret" true ∅ true ["other"%string; "secret"%string] in
  let w' := handleUnlock RequestFailed w in
  isLocked (gate w') = false
  /\ sessionStorage w' !! SESSION_UNLOCKED_KEY = Some "true"%string
  /\ sessionUnlocked w' = true
  /\ error (gate w') = false
  /\ isValidating (gate w') = false
  /\ effects w' = effects w.
Proof.
  cbn zeta. apply handleUnlock_local. cbn. compute_done.
Defined.

Lemma handleUnlock_remote_witness :
  let w := exampleWorld true "guess" true ∅ true ["secret"%string] in
  isLocked (gate (handleUnlock (Answered true) w)) = false
  /\ isLocked (gate (handleUnlock (Answered false) w)) = true
  /\ error (gate (handleUnlock RequestFailed w)) = true.
Proof.
  cbn zeta.
  destruct (handleUnlock_remote
              (exampleWorld true "guess" true ∅ true ["secret"%string]))
    as [Hyes Hno].
  - cbn. compute_done.
  - reflexivity.
  - destruct Hyes as [Hopen _].
    destruct (Hno (Answered false) (or_introl eq_refl)) as (_ & Hstays & _).
    destruct (Hno RequestFailed (or_intror eq_refl)) as (_ & _ & _ & Herr & _).
    split; [exact Hopen|]. split; [apply Hstays; reflexivity | exact Herr].
Defined.

(** ** useSubscriptionSync *)

(** The batch of the example: [subA] and [subC] are fetched and merged,
    [subB] fails, [subOff] is not asked. *)
Example sync_example :
  let w' := (sync exampleMerge exampleNetwork exampleClock exampleSubs exampleSyncWorld).2 in
  fetched w' = [url subA; url subB; url subC]
  /\ errorLog w' = [name subB]
  /\ sources (store w') = ["s0"; "s1"; "s2"]%string
  /\ premiumSources (store w') = ["p1"%string]
  /\ subscriptions (store w')
     = [withLastUpdated 1000 subA; subOff; subB; withLastUpdated 1001 subC]
  /\ saves w' = [store w'].
Proof. vm_compute. repeat split. Qed.

(** Every fetch returns the source that is stored already: after the batch
    both source lists are the stored ones, in the loop and in the store, and
    yet the batch has made a [saveSettings] call. *)
Lemma sync_saves_without_change :
  let acc := (sync_loop exampleMerge knownNetwork exampleClock (filter active exampleSubs)
                (initialAcc exampleStore exampleSubs) exampleSyncWorld).1 in
  let w' := (sync exampleMerge knownNetwork exampleClock exampleSubs exampleSyncWorld).2 in
  currentSources acc = sources exampleStore
  /\ currentPremiumSources acc = premiumSources exampleStore
  /\ sources (store w') = sources (store exampleSyncWorld)
  /\ premiumSources (store w') = premiumSources (store exampleSyncWorld)
  /\ length (saves w') = 1%nat
  /\ saves w' <> saves exampleSyncWorld.
Proof. vm_compute. repeat split. discriminate. Qed.

(** Two ways in which a persisted batch sets a timestamp back.  A clock that
    reads 5 where the store holds 10: the batch persists 5.  And, under a
    clock that only moves forward, two runs of [sync] that overlap: the first
    run stamps [subB] and waits for its second fetch; a second run, armed in
    the meantime, stamps both and saves; the first run then resumes, stamps
    [subC], and saves its own copy, with the older stamp of [subB]. *)
Lemma lastUpdated_not_monotone :
  (let w' := (sync exampleMerge exampleNetwork backwardsClock exampleSubs
                exampleSyncWorld).2 in
   lastUpdated <$> subscriptions (store exampleSyncWorld) = [Some 10; Some 7; None; None]
   /\ lastUpdated <$> subscriptions (store w') = [Some 5; Some 7; None; Some 5]
   /\ length (saves w') = 1%nat
   /\ ~ Forall2 notEarlier (subscriptions (store exampleSyncWorld))
                           (subscriptions (store w')))
  /\ (let settings1 := store pairWorld in
      let r1 := sync_step exampleMerge steadyNetwork exampleClock
                  (initialAcc settings1 pairSubs) subB pairWorld in
      let w2 := (sync exampleMerge steadyNetwork exampleClock pairSubs r1.2).2 in
      let r3 := sync_step exampleMerge steadyNetwork exampleClock r1.1 subC w2 in
      let w4 := (sync_finish settings1 r3.1 r3.2).2 in
      lastUpdated <$> subscriptions (store w2) = [Some 1001; Some 1002]
      /\ lastUpdated <$> subscriptions (store w4) = [Some 1000; Some 1003]
      /\ length (saves w4) = 2%nat
      /\ ~ Forall2 notEarlier (subscriptions (store w2)) (subscriptions (store w4))).
Proof.
  split.
  - cbn zeta. split; [reflexivity|]. split; [reflexivity|]. split; [reflexivity|].
    intros H.
    replace (subscriptions (store (sync exampleMerge exampleNetwork backwardsClock
                                     exampleSubs exampleSyncWorld).2))
      with [withLastUpdated 5 subA; subOff; subB; withLastUpdated 5 subC]
      in H by (vm_compute; reflexivity).
    apply Forall2_cons_1 in H as [[_ H] _].
    destruct H as [H | (u & Hu & H)]; [discriminate|].
    injection Hu as <-. specialize (H 10 eq_refl). lia.
  - cbn zeta. split; [reflexivity|]. split; [reflexivity|]. split; [reflexivity|].
    intros H.
    match type of H with
    | Forall2 _ ?l2 ?l4 =>
        replace l2 with [withLastUpdated 1001 subB; withLastUpdated 1002 subC]
          in H by (vm_compute; reflexivity);
        replace l4 with [withLastUpdated 1000 subB; withLastUpdated 1003 subC]
          in H by (vm_compute; reflexivity)
    end.
    apply Forall2_cons_1 in H as [[_ H] _].
    destruct H as [H | (u & Hu & H)]; [discriminate|].
    injection Hu as <-. specialize (H 1001 eq_refl). lia.
Qed.

Lemma sync_isolates_failure_witness :
  let w' := (sync exampleMerge exampleNetwork exampleClock exampleSubs exampleSyncWorld).2 in
  exists ia ib ic,
    exampleSubs !! ia = Some subA
    /\ exampleSubs !! ib = Some subB
    /\ exampleSubs !! ic = Some subC
    /\ saves w' = saves exampleSyncWorld ++ [store w']
    /\ subscriptions (store w') !! ia = Some (withLastUpdated (exampleClock 0) subA)
    /\ subscriptions (store w') !! ib = Some subB
    /\ subscriptions (store w') !! ic = Some (withLastUpdated (exampleClock 1) subC).
Proof.
  cbn zeta.
  destruct (sync_isolates_failure exampleMerge exampleNetwork exampleClock exampleSubs
              subA subB subC
              (mkFetchResult ["s1"%string] [])
              (mkFetchResult ["s0"%string; "s2"%string] ["p1"%string])
              exampleSyncWorld)
    as (ia & ib & ic & Ha & Hb & Hc & _ & _ & Hsv & _ & _ & _ & _ & _ & Hsa & Hsb & Hsc & _).
  - compute_done.
  - reflexivity.
  - reflexivity.
  - reflexivity.
  - reflexivity.
  - reflexivity.
  - reflexivity.
  - exists ia, ib, ic. repeat split; assumption.
Defined.

Lemma sync_empty_results_discard_stamps_witness :
  let acc := (sync_loop exampleMerge quietNetwork exampleClock (filter active exampleSubs)
                (initialAcc (store exampleSyncWorld) exampleSubs) exampleSyncWorld).1 in
  let w' := (sync exampleMerge quietNetwork exampleClock exampleSubs exampleSyncWorld).2 in
  saves w' = saves exampleSyncWorld
  /\ store w' = store exampleSyncWorld
  /\ exists i s j,
       updatedSubscriptions acc !! i = Some s
       /\ id s = id subC
       /\ (clockReads exampleSyncWorld <= j < clockReads w')%nat
       /\ lastUpdated s = Some (exampleClock j).
Proof.
  cbn zeta.
  destruct (sync_empty_results_discard_stamps exampleMerge quietNetwork exampleClock
              exampleSubs exampleSyncWorld) as (Hsv & Hst & Hrec).
  - intros k sub r _ H. cbn in H.
    destruct k as [|[|k]]; cbn in H; try discriminate; injection H as <-; auto.
  - split; [exact Hsv|]. split; [exact Hst|].
    apply (Hrec 2%nat subC (mkFetchResult [] [])); reflexivity.
Defined.

Lemma lastUpdated_monotone_witness :
  let w' := (sync exampleMerge exampleNetwork exampleClock exampleSubs exampleSyncWorld).2 in
  Forall2 notEarlier (subscriptions (store exampleSyncWorld)) (subscriptions (store w'))
  /\ stampsUpTo (exampleClock (clockReads w')) (subscriptions (store w')).
Proof.
  cbn zeta.
  apply (lastUpdated_monotone exampleMerge exampleNetwork exampleClock exampleSubs
           exampleSyncWorld).
  - intros j k Hjk. unfold exampleClock. lia.
  - reflexivity.
  - intros s u Hin Hu. apply list_elem_of_In in Hin. cbn in Hin.
    destruct Hin as [<-|[<-|[<-|[<-|[]]]]]; cbn in Hu; try discriminate;
      injection Hu as <-; unfold exampleClock; cbn; lia.
Defined.

(** ** The debounce *)

(** Three changes within 300 ms, then time goes by: one [sync], a second
    after the last change. *)
Example debounce_example :
  launches (run (SubscriptionsChanged :: burst [100; 200]
                   ++ [Elapse 999; Elapse 1; Elapse 5000]) (mountSync 0))
  = [1300].
Proof. reflexivity. Qed.

Lemma debounce_single_sync_witness :
  let t1 := run (SubscriptionsChanged :: burst [100; 200]) (mountSync 0) in
  launches t1 = launches (mountSync 0)
  /\ (exists i, pending t1 = [(i, now t1 + 1000)])
  /\ (forall e, e < 1000 -> launches (elapse e t1) = launches (mountSync 0))
  /\ (forall e, 1000 <= e -> launches (elapse e t1) = launches (mountSync 0) ++ [now t1 + e])
  /\ (length (launches (run (Elapse <$> ([999%Z; 1%Z; 5000%Z] : list Z)) t1))
      <= S (length (launches (mountSync 0))))%nat.
Proof.
  cbn zeta. apply (debounce_single_sync (mountSync 0) [100; 200] [999; 1; 5000]).
  - unfold cleanupCovers. cbn. repeat constructor.
  - repeat constructor; lia.
Defined.

(** * Further properties *)

(** ** PasswordGate: the unlock attempt *)

Section GateFurther.

Context {Source Rest EnvSubs : Type}.
Local Abbreviation GateWorld := (@GateWorld Source Rest).
Local Abbreviation Settings := (@Settings Source Rest).
Variable syncEnvSubscriptions : EnvSubs -> Settings -> Settings.

Implicit Types w : GateWorld.

(** The three ways [handleUnlock] can go. *)
Lemma handleUnlock_cases server w :
  let accepted :=
    includes (accessPasswords (settingsStore w)) (password (gate w))
    || hasEnvPassword (gate w)
       && match server with Answered true => true | _ => false end in
  if accepted
  then isLocked (gate (handleUnlock server w)) = false
       /\ sessionUnlocked (handleUnlock server w) = true
       /\ error (gate (handleUnlock server w)) = false
  else isLocked (gate (handleUnlock server w)) = isLocked (gate w)
       /\ sessionStorage (handleUnlock server w) = sessionStorage w
       /\ error (gate (handleUnlock server w)) = true.
Proof.
  assert (Hset : forall w0 : GateWorld,
             sessionUnlocked (setItem SESSION_UNLOCKED_KEY "true" w0) = true).
  { intros w0. unfold sessionUnlocked. cbn. apply bool_decide_eq_true_2, lookup_insert_eq. }
  cbn zeta. unfold handleUnlock. cbn.
  destruct (includes _ _); cbn.
  - repeat split. apply (Hset (setIsValidating true w)).
  - destruct (hasEnvPassword (gate w)); cbn.
    + destruct server as [[|]|]; cbn; repeat split.
      apply (Hset (emit (PostPassword (password (gate w))) (setIsValidating true w))).
    + repeat split.
Qed.

(** A closed gate in a session that is not unlocked opens, and the session
    flag is set, exactly when the candidate is a local access password or a
    server password is known and the server answers [valid: true]. *)
Theorem handleUnlock_opens_iff server w :
  isLocked (gate w) = true ->
  sessionUnlocked w = false ->
  let valid :=
    password (gate w) ∈ accessPasswords (settingsStore w)
    \/ (hasEnvPassword (gate w) = true /\ server = Answered true) in
  (isLocked (gate (handleUnlock server w)) = false <-> valid)
  /\ (sessionUnlocked (handleUnlock server w) = true <-> valid).
Proof.
  intros Hl Hu. cbn zeta.
  pose proof (handleUnlock_cases server w) as H. cbn zeta in H.
  unfold includes in H.
  destruct (decide (password (gate w) ∈ accessPasswords (settingsStore w))) as [Hin|Hnin].
  - rewrite bool_decide_eq_true_2 in H by exact Hin. cbn in H.
    destruct H as (H1 & H2 & _). split; split; auto.
  - rewrite bool_decide_eq_false_2 in H by exact Hnin. cbn in H.
    destruct (hasEnvPassword (gate w)); cbn in H.
    + destruct server as [[|]|]; cbn in H.
      * destruct H as (H1 & H2 & _). split; split; auto.
      * destruct H as (H1 & H2 & _).
        split; split; try (intros [?|[_ ?]]; [tauto | discriminate]).
        -- congruence.
        -- unfold sessionUnlocked in *. rewrite H2. congruence.
      * destruct H as (H1 & H2 & _).
        split; split; try (intros [?|[_ ?]]; [tauto | discriminate]).
        -- congruence.
        -- unfold sessionUnlocked in *. rewrite H2. congruence.
    + destruct H as (H1 & H2 & _).
      split; split; try (intros [?|[? _]]; [tauto | discriminate]).
      * congruence.
      * unfold sessionUnlocked in *. rewrite H2. congruence.
Qed.

(** The only validation request a submit can add carries the typed
    candidate, and it is added only when the candidate is not a local access
    password and a server password is known. *)
Theorem handleUnlock_posts_only_when_needed server w p :
  (PostPassword p ∈ effects (handleUnlock server w)) ->
  (PostPassword p ∈ effects w)
  \/ (p = password (gate w)
      /\ (password (gate w) ∉ accessPasswords (settingsStore w))
      /\ hasEnvPassword (gate w) = true).
Proof.
  unfold handleUnlock, includes. cbn.
  destruct (decide (password (gate w) ∈ accessPasswords (settingsStore w))) as [Hin|Hnin].
  - rewrite bool_decide_eq_true_2 by exact Hin. cbn. auto.
  - rewrite bool_decide_eq_false_2 by exact Hnin. cbn.
    assert (Hpost : forall l : list Effect,
               (PostPassword p ∈ (effects w ++ [PostPassword (password (gate w))]) ++ l) ->
               Forall (fun e => e = Shake) l ->
               (PostPassword p ∈ effects w) \/ p = password (gate w)).
    { intros l H Hl. apply elem_of_app in H as [H|H].
      - apply elem_of_app in H as [H|H]; [left; exact H|].
        apply list_elem_of_singleton in H. injection H as ->. right. reflexivity.
      - rewrite Forall_forall in Hl. specialize (Hl _ H). discriminate. }
    destruct (hasEnvPassword (gate w)); cbn.
    + intros H.
      assert ((PostPassword p ∈ effects w) \/ p = password (gate w)) as [H1|H1].
      { destruct server as [[|]|]; cbn in H.
        - apply (Hpost []); [rewrite app_nil_r; exact H | constructor].
        - apply (Hpost [Shake]); [exact H | repeat constructor].
        - apply (Hpost [Shake]); [exact H | repeat constructor]. }
      * left. exact H1.
      * right. auto.
    + intros H. apply elem_of_app in H as [H|H]; [left; exact H|].
      apply list_elem_of_singleton in H. discriminate.
Qed.

(** ** PasswordGate: the settings subscriber and the late answer *)

Lemma handleSettingsUpdate_session w :
  sessionStorage (handleSettingsUpdate w) = sessionStorage w.
Proof.
  unfold handleSettingsUpdate.
  destruct (negb _ && negb _); [reflexivity|].
  destruct (_ && _); reflexivity.
Qed.

(** The settings subscriber touches the lock state and nothing else, and a
    second notification for the same settings changes nothing more. *)
Theorem handleSettingsUpdate_frame w :
  let w' := handleSettingsUpdate w in
  password (gate w') = password (gate w)
  /\ error (gate w') = error (gate w)
  /\ isClient (gate w') = isClient (gate w)
  /\ hasEnvPassword (gate w') = hasEnvPassword (gate w)
  /\ isValidating (gate w') = isValidating (gate w)
  /\ mounted w' = mounted w
  /\ sessionStorage w' = sessionStorage w
  /\ settingsStore w' = settingsStore w
  /\ effects w' = effects w
  /\ handleSettingsUpdate w' = w'.
Proof.
  cbn zeta. unfold handleSettingsUpdate.
  destruct (negb (passwordAccess (settingsStore w)) && negb (hasEnvPassword (gate w)))
    eqn:H1.
  - cbn. rewrite H1. repeat split.
  - destruct (passwordAccess (settingsStore w) && negb (sessionUnlocked w)) eqn:H2.
    + cbn. rewrite H1.
      change (sessionUnlocked (setIsLocked true w)) with (sessionUnlocked w).
      rewrite H2. repeat split.
    + rewrite H1, H2. repeat split.
Qed.

(** A config answer that arrives after the unmount changes neither the
    component state, nor the store, nor the session storage. *)
Theorem init_remote_after_unmount c (resp : option (@ConfigData EnvSubs)) w :
  let w' := init_remote syncEnvSubscriptions c resp (unmount w) in
  gate w' = gate w
  /\ settingsStore w' = settingsStore w
  /\ sessionStorage w' = sessionStorage w
  /\ mounted w' = false.
Proof. destruct resp; repeat split. Qed.

Lemma unmounted_step ev w :
  mounted w = false ->
  @passiveEvent Source Rest EnvSubs ev ->
  let w' := gateStep syncEnvSubscriptions w ev in
  gate w' = gate w
  /\ sessionStorage w' = sessionStorage w
  /\ mounted w' = false
  /\ (match ev with StoreChanged _ => False | _ => True end ->
      settingsStore w' = settingsStore w).
Proof.
  intros Hm Hev. cbn zeta.
  destruct ev as [initial|c resp| |s0|v|server]; cbn in Hev; try contradiction;
    cbn [gateStep].
  - destruct resp as [data|]; unfold init_remote; rewrite ?Hm; cbn; auto.
  - cbn. auto.
  - rewrite Hm. cbn. repeat split; auto. contradiction.
Qed.

(** An unmounted component ignores what still reaches it: through any
    config answers and store changes after the unmount, the component state
    and the session storage stay as they were, and a late answer does not
    touch the store. *)
Theorem unmounted_ignores evs : forall w,
  mounted w = false ->
  Forall (@passiveEvent Source Rest EnvSubs) evs ->
  let w' := gateRun syncEnvSubscriptions evs w in
  gate w' = gate w
  /\ sessionStorage w' = sessionStorage w
  /\ mounted w' = false
  /\ (Forall (fun ev => match ev with StoreChanged _ => False | _ => True end) evs ->
      settingsStore w' = settingsStore w).
Proof.
  induction evs as [|ev evs IH]; intros w Hm Hevs; cbn zeta; [repeat split; auto|].
  apply Forall_cons in Hevs as [Hev Hevs].
  change (gateRun syncEnvSubscriptions (ev :: evs) w)
    with (gateRun syncEnvSubscriptions evs (gateStep syncEnvSubscriptions w ev)).
  destruct (unmounted_step ev w Hm Hev) as (Hg & Hs & Hm' & Hst). cbn zeta in *.
  destruct (IH _ Hm' Hevs) as (Hg' & Hs' & Hm'' & Hst'). cbn zeta in *.
  split; [congruence|]. split; [congruence|]. split; [exact Hm''|].
  intros Hno. apply Forall_cons in Hno as [Hno1 Hno]. rewrite (Hst' Hno). auto.
Qed.

(** A config answer that arrives after a successful unlock closes the gate
    again: [init] decides with the session flag it read before the request,
    so when the session was not unlocked then and a password is required,
    the answer sets the lock although the session flag now reads ["true"]. *)
Theorem late_answer_relocks initial server (data : @ConfigData EnvSubs) w :
  sessionUnlocked w = false ->
  password (gate w) ∈ accessPasswords (settingsStore w)
  \/ (hasEnvPassword (gate w) = true /\ server = Answered true) ->
  passwordAccess (settingsStore w) || cfg_hasEnvPassword data = true ->
  let c := (init_local initial w).1 in
  let w1 := (init_local initial w).2 in
  let w2 := handleUnlock server w1 in
  let w3 := init_remote syncEnvSubscriptions c (Some data) w2 in
  isLocked (gate w2) = false
  /\ sessionUnlocked w2 = true
  /\ sessionUnlocked w3 = true
  /\ isLocked (gate w3) = true.
Proof.
  intros Hu Hvalid Hreq. cbn zeta.
  pose proof (handleUnlock_cases server (init_local initial w).2) as H. cbn zeta in H.
  change (settingsStore (init_local initial w).2) with (settingsStore w) in H.
  change (password (gate (init_local initial w).2)) with (password (gate w)) in H.
  change (hasEnvPassword (gate (init_local initial w).2)) with (hasEnvPassword (gate w)) in H.
  assert (Hacc : includes (accessPasswords (settingsStore w)) (password (gate w))
                 || hasEnvPassword (gate w)
                    && match server with Answered true => true | _ => false end = true).
  { destruct Hvalid as [Hin | [Henv ->]].
    - unfold includes. rewrite bool_decide_eq_true_2 by exact Hin. reflexivity.
    - rewrite Henv. apply orb_true_r. }
  rewrite Hacc in H. destruct H as (Hopen & Hflag & _).
  split; [exact Hopen|]. split; [exact Hflag|].
  assert (Hm : mounted (handleUnlock server (init_local initial w).2) = true).
  { unfold handleUnlock. cbn.
    destruct (includes _ _); [reflexivity|].
    destruct (hasEnvPassword (gate w)); [|reflexivity].
    destruct server as [[|]|]; reflexivity. }
  split.
  - unfold init_remote. rewrite Hm.
    destruct (cfg_subscriptionSources data); exact Hflag.
  - rewrite (init_remote_locked _ _ _ _ Hm). rewrite init_local_closure. cbn.
    rewrite Hu. unfold lockFormula. rewrite Hreq. reflexivity.
Qed.

(** ** PasswordGate: what is rendered *)

(** On a visible, closed gate a submit shows the children when the candidate
    is accepted; otherwise the form stays, with the candidate and the error
    line, and the next keystroke removes the error line. *)
Theorem render_after_submit server v w :
  isClient (gate w) = true ->
  isLocked (gate w) = true ->
  let accepted :=
    includes (accessPasswords (settingsStore w)) (password (gate w))
    || hasEnvPassword (gate w)
       && match server with Answered true => true | _ => false end in
  render (gate (handleUnlock server w))
  = (if accepted then RenderChildren else RenderPrompt (password (gate w)) true)
  /\ render (gate (onPasswordChange v (handleUnlock server w)))
     = (if accepted then RenderChildren else RenderPrompt v false).
Proof.
  intros Hc Hl. cbn zeta.
  pose proof (handleUnlock_cases server w) as H. cbn zeta in H.
  assert (Hcl : isClient (gate (handleUnlock server w)) = true
                /\ password (gate (handleUnlock server w)) = password (gate w)).
  { unfold handleUnlock. cbn.
    destruct (includes _ _); [auto|].
    destruct (hasEnvPassword (gate w)); [|auto].
    destruct server as [[|]|]; auto. }
  destruct Hcl as [Hcl Hpw].
  unfold render, onPasswordChange. cbn. rewrite Hcl, Hpw. cbn.
  destruct (includes _ _ || _).
  - destruct H as (-> & _). auto.
  - destruct H as (-> & _ & ->). rewrite Hl. auto.
Qed.

(** ** PasswordGate: an unlocked session stays unlocked *)

Local Abbreviation stepGate := (@gateStep Source Rest EnvSubs syncEnvSubscriptions).
Local Abbreviation runGate := (@gateRun Source Rest EnvSubs syncEnvSubscriptions).

Lemma sessionUnlocked_handleUnlock server w :
  sessionUnlocked w = true -> sessionUnlocked (handleUnlock server w) = true.
Proof.
  intros Hu. pose proof (handleUnlock_cases server w) as H. cbn zeta in H.
  destruct (includes _ _ || _).
  - tauto.
  - destruct H as (_ & Hs & _). unfold sessionUnlocked in *. rewrite Hs. exact Hu.
Qed.

(** No event removes the session flag. *)
Lemma sessionUnlocked_gateStep ev w :
  sessionUnlocked w = true -> sessionUnlocked (stepGate w ev) = true.
Proof.
  intros Hu. destruct ev as [initial|c resp| |s0|v|server]; cbn [gateStep].
  - exact Hu.
  - destruct resp as [data|]; [|exact Hu]. unfold init_remote.
    destruct (mounted w); [|exact Hu].
    destruct (cfg_subscriptionSources data); exact Hu.
  - exact Hu.
  - destruct (mounted w); [|exact Hu].
    unfold sessionUnlocked in *. rewrite handleSettingsUpdate_session. exact Hu.
  - exact Hu.
  - apply sessionUnlocked_handleUnlock, Hu.
Qed.

Lemma open_gateStep ev w :
  answeredUnlocked ev ->
  sessionUnlocked w = true -> isLocked (gate w) = false ->
  isLocked (gate (stepGate w ev)) = false.
Proof.
  intros Hev Hu Hl. destruct ev as [initial|c resp| |s0|v|server]; cbn [gateStep].
  - rewrite init_local_locked, Hu. unfold lockFormula. apply andb_false_r.
  - destruct resp as [data|]; [|exact Hl]. cbn in Hev.
    destruct (mounted w) eqn:Hm.
    + rewrite (init_remote_locked _ _ _ _ Hm), Hev. unfold lockFormula.
      apply andb_false_r.
    + unfold init_remote. rewrite Hm. exact Hl.
  - exact Hl.
  - destruct (mounted w); [|exact Hl].
    rewrite handleSettingsUpdate_locked.
    change (sessionUnlocked (setStore s0 w)) with (sessionUnlocked w). rewrite Hu.
    destruct (negb _ && negb _); [reflexivity|].
    rewrite andb_false_r. exact Hl.
  - exact Hl.
  - pose proof (handleUnlock_cases server w) as H. cbn zeta in H.
    destruct (includes _ _ || _).
    + tauto.
    + destruct H as (-> & _). exact Hl.
Qed.

(** Once the session flag reads ["true"] no event removes it; and an open
    gate in such a session stays open through every [init], store change,
    keystroke, submit and unmount, and through every config answer of an
    [init] that started when the session was already unlocked. *)
Theorem unlocked_session_sticky evs : forall w,
  sessionUnlocked w = true ->
  sessionUnlocked (runGate evs w) = true
  /\ (isLocked (gate w) = false ->
      Forall answeredUnlocked evs ->
      isLocked (gate (runGate evs w)) = false).
Proof.
  induction evs as [|ev evs IH]; intros w Hu; [auto|].
  change (runGate (ev :: evs) w) with (runGate evs (stepGate w ev)).
  destruct (IH (stepGate w ev) (sessionUnlocked_gateStep ev w Hu)) as [IH1 IH2].
  split; [exact IH1|].
  intros Hl Hevs. apply Forall_cons in Hevs as [Hev Hevs].
  apply IH2; [|exact Hevs]. apply open_gateStep; assumption.
Qed.

End GateFurther.

(** ** useSubscriptionSync: what a batch asks, logs, reads and merges *)

Section SyncFurther.

Context {Source Rest : Type}.
Variable mergeSources : list Source -> list Source -> list Source.
Variable network : nat -> string -> option (@FetchResult Source).
Variable clock : nat -> Z.

Local Abbreviation World := (@SyncWorld Source Rest).
Local Abbreviation syncStep := (@sync_step Source Rest mergeSources network clock).
Local Abbreviation syncLoop := (@sync_loop Source Rest mergeSources network clock).
Local Abbreviation syncBatch := (@sync Source Rest mergeSources network clock).
Local Abbreviation merged := (@mergeResult Source mergeSources).
Local Abbreviation outcomes := (@outcomesFrom Source network).
Local Abbreviation failures := (@failuresFrom Source network).
Local Abbreviation successes := (@successesFrom Source network).
Local Abbreviation stamped := (stampedIn clock).

Implicit Types (w : World) (acc : @Acc Source) (sub : Subscription).
Implicit Types (l subs : list Subscription).

(** An id that the local copy holds. *)
Local Abbreviation present sub l := (exists s, s ∈ l /\ id s = id sub).

Lemma sync_step_accounting acc sub w :
  present sub (updatedSubscriptions acc) ->
  let o := network (length (fetched w)) (url sub) in
  let w' := (syncStep acc sub w).2 in
  errorLog w' = errorLog w ++ (match o with None => [name sub] | Some _ => [] end)
  /\ clockReads w' = (clockReads w + match o with Some _ => 1 | None => 0 end)%nat.
Proof.
  intros (s & Hin & Hid). cbn zeta.
  destruct (network (length (fetched w)) (url sub)) as [r|] eqn:Hnet.
  - rewrite (sync_step_ok _ _ _ _ _ _ _ Hnet).
    rewrite <- (mergeResult_subscriptions mergeSources r acc) in Hin.
    destruct (findIndex_present sub _ s Hin Hid) as (i & old & Hfind).
    rewrite (stamp_found _ _ _ _ _ _ Hfind). cbn.
    rewrite app_nil_r. split; [reflexivity | lia].
  - rewrite (sync_step_failed _ _ _ _ _ _ Hnet). cbn. split; [reflexivity | lia].
Qed.

Lemma successes_cons k sub l :
  successes k (sub :: l)
  = match network k (url sub) with Some r => [r] | None => [] end ++ successes (S k) l.
Proof.
  unfold successesFrom. cbn. destruct (network k (url sub)); reflexivity.
Qed.

Lemma sync_loop_accounting l : forall acc w,
  (forall sub, sub ∈ l -> present sub (updatedSubscriptions acc)) ->
  let w' := (syncLoop l acc w).2 in
  errorLog w' = errorLog w ++ failures (length (fetched w)) l
  /\ clockReads w' = (clockReads w + length (successes (length (fetched w)) l))%nat.
Proof.
  induction l as [|sub l IH]; intros acc w Hpres; cbn zeta.
  - cbn. rewrite app_nil_r. split; [reflexivity | lia].
  - rewrite (sync_loop_cons mergeSources network clock).
    assert (Hsub : present sub (updatedSubscriptions acc))
      by (apply Hpres; left).
    pose proof (sync_step_accounting acc sub w Hsub) as [He Hc].
    pose proof (sync_step_spec mergeSources network clock acc sub w)
      as (_ & _ & Hf & _ & Hs & _).
    cbn zeta in *.
    set (acc1 := (syncStep acc sub w).1) in *.
    set (w1 := (syncStep acc sub w).2) in *.
    assert (Hpres1 : forall sub', sub' ∈ l -> present sub' (updatedSubscriptions acc1)).
    { intros sub' Hin. eapply present_kept; [exact Hs|]. apply Hpres. right. exact Hin. }
    destruct (IH acc1 w1 Hpres1) as [He' Hc'].
    assert (Hlen : length (fetched w1) = S (length (fetched w)))
      by (rewrite Hf, length_app; cbn; lia).
    rewrite Hlen in *. rewrite He', Hc', He, Hc, successes_cons, length_app.
    cbn [failuresFrom].
    destruct (network (length (fetched w)) (url sub)); cbn.
    + rewrite app_nil_r. split; [reflexivity | lia].
    + rewrite <- app_assoc. split; [reflexivity | lia].
Qed.

Lemma active_present subs sub :
  sub ∈ filter active subs -> present sub subs.
Proof.
  intros Hin. apply list_elem_of_filter in Hin as [_ Hin]. exists sub. auto.
Qed.

(** A batch logs one error per failed request, with the name of its
    subscription and in the order of the requests, and reads the clock once
    per request that succeeded. *)
Theorem sync_errors_and_clock subs w :
  let n := length (fetched w) in
  let w' := (syncBatch subs w).2 in
  errorLog w' = errorLog w ++ failures n (filter active subs)
  /\ clockReads w' = (clockReads w + length (successes n (filter active subs)))%nat.
Proof.
  cbn zeta. rewrite (sync_unfold mergeSources network clock).
  destruct (length (filter active subs) =? 0)%nat eqn:Hlen.
  - apply Nat.eqb_eq, nil_length_inv in Hlen. rewrite Hlen. cbn.
    rewrite app_nil_r. split; [reflexivity | lia].
  - cbn zeta.
    pose proof (sync_loop_accounting (filter active subs) (initialAcc (store w) subs) w)
      as H. cbn zeta in H.
    destruct H as [He Hc]; [intros sub; apply active_present|].
    destruct (anyChanged _); cbn; auto.
Qed.

(** *** The merged source lists *)

Lemma nonEmptyLists_cons (x : list Source) ls :
  nonEmptyLists (x :: ls)
  = if nonEmpty x then x :: nonEmptyLists ls else nonEmptyLists ls.
Proof.
  unfold nonEmptyLists. rewrite filter_cons.
  destruct (nonEmpty x); destruct (decide _); congruence.
Qed.

Lemma stamp_sources sub acc w :
  currentSources (stamp clock sub acc w).1 = currentSources acc
  /\ currentPremiumSources (stamp clock sub acc w).1 = currentPremiumSources acc.
Proof.
  unfold stamp. destruct (findIndex sub (updatedSubscriptions acc)) as [[i old]|]; auto.
Qed.

Lemma sync_step_sources acc sub w :
  let o := network (length (fetched w)) (url sub) in
  let acc' := (syncStep acc sub w).1 in
  currentSources acc'
  = foldl mergeSources (currentSources acc)
      (nonEmptyLists (normalSources <$> match o with Some r => [r] | None => [] end))
  /\ currentPremiumSources acc'
     = foldl mergeSources (currentPremiumSources acc)
         (nonEmptyLists (result_premiumSources <$>
                           match o with Some r => [r] | None => [] end)).
Proof.
  cbn zeta. destruct (network (length (fetched w)) (url sub)) as [r|] eqn:Hnet.
  - rewrite (sync_step_ok _ _ _ _ _ _ _ Hnet).
    destruct (stamp_sources sub (merged r acc) (requested (url sub) w)) as [-> ->].
    cbn [fmap list_fmap]. rewrite !nonEmptyLists_cons. unfold mergeResult.
    destruct (nonEmpty (normalSources r)), (nonEmpty (result_premiumSources r));
      split; reflexivity.
  - rewrite (sync_step_failed _ _ _ _ _ _ Hnet). split; reflexivity.
Qed.

Lemma nonEmptyLists_app (ls ks : list (list Source)) :
  nonEmptyLists (ls ++ ks) = nonEmptyLists ls ++ nonEmptyLists ks.
Proof. unfold nonEmptyLists. apply filter_app. Qed.

Lemma sync_loop_sources l : forall acc w,
  let rs := successes (length (fetched w)) l in
  let acc' := (syncLoop l acc w).1 in
  currentSources acc'
  = foldl mergeSources (currentSources acc) (nonEmptyLists (normalSources <$> rs))
  /\ currentPremiumSources acc'
     = foldl mergeSources (currentPremiumSources acc)
         (nonEmptyLists (result_premiumSources <$> rs)).
Proof.
  induction l as [|sub l IH]; intros acc w; cbn zeta; [split; reflexivity|].
  rewrite (sync_loop_cons mergeSources network clock).
  pose proof (sync_step_sources acc sub w) as [Hs Hp].
  pose proof (sync_step_spec mergeSources network clock acc sub w) as (_ & _ & Hf & _).
  cbn zeta in *.
  set (acc1 := (syncStep acc sub w).1) in *.
  set (w1 := (syncStep acc sub w).2) in *.
  destruct (IH acc1 w1) as [Hs' Hp'].
  assert (Hlen : length (fetched w1) = S (length (fetched w)))
    by (rewrite Hf, length_app; cbn; lia).
  rewrite Hlen in *.
  rewrite Hs', Hp', Hs, Hp, successes_cons, !fmap_app, !nonEmptyLists_app, !foldl_app.
  split; reflexivity.
Qed.

(** After a batch the stored normal sources are the ones before it with the
    non-empty normal lists of the successful fetches merged in, one after the
    other in the order of the requests; likewise the premium sources.  A
    failed fetch and an empty list contribute nothing. *)
Theorem sync_sources_fold subs w :
  let rs := successes (length (fetched w)) (filter active subs) in
  let w' := (syncBatch subs w).2 in
  sources (store w')
  = foldl mergeSources (sources (store w)) (nonEmptyLists (normalSources <$> rs))
  /\ premiumSources (store w')
     = foldl mergeSources (premiumSources (store w))
         (nonEmptyLists (result_premiumSources <$> rs)).
Proof.
  cbn zeta.
  pose proof (sync_saves mergeSources network clock subs w) as (Ha & _ & _ & _ & Hyes & Hno).
  pose proof (sync_loop_sources (filter active subs) (initialAcc (store w) subs) w)
    as [Hs Hp].
  pose proof (sync_loop_spec mergeSources network clock (filter active subs)
                (initialAcc (store w) subs) w) as (_ & _ & _ & _ & _ & _ & Hsame).
  cbn zeta in *. cbn [initialAcc currentSources currentPremiumSources] in *.
  destruct (anyChanged (syncLoop (filter active subs) (initialAcc (store w) subs) w).1)
    eqn:Hany.
  - destruct (Hyes eq_refl) as [_ ->]. cbn. auto.
  - destruct (Hno eq_refl) as [_ ->]. symmetry in Ha.
    destruct (Hsame Ha) as [Hs0 Hp0]. split; congruence.
Qed.

(** *** What a batch leaves alone *)

Lemma stampedIn_same lo hi (ls ls' : list Subscription) :
  Forall2 (stamped lo hi) ls ls' -> Forall2 sameSubscription ls ls'.
Proof.
  intros HF. eapply Forall2_impl; [exact HF|]. intros x y [H _]. exact H.
Qed.

(** A batch that starts from the stored subscription list never adds,
    removes or reorders a subscription and changes none of [id], [url],
    [name] and [autoRefresh]; nor does it change the password settings or
    the settings fields it does not read. *)
Theorem sync_keeps_settings subs w :
  subs = subscriptions (store w) ->
  let w' := (syncBatch subs w).2 in
  Forall2 sameSubscription (subscriptions (store w)) (subscriptions (store w'))
  /\ length (subscriptions (store w')) = length (subscriptions (store w))
  /\ passwordAccess (store w') = passwordAccess (store w)
  /\ accessPasswords (store w') = accessPasswords (store w)
  /\ rest (store w') = rest (store w).
Proof.
  intros Hsubs. cbn zeta.
  pose proof (sync_saves mergeSources network clock subs w) as (_ & _ & _ & HF & Hyes & Hno).
  cbn zeta in *. apply stampedIn_same in HF.
  destruct (anyChanged (syncLoop (filter active subs) (initialAcc (store w) subs) w).1).
  - destruct (Hyes eq_refl) as [_ ->]. cbn. rewrite <- Hsubs.
    split; [exact HF|]. split; [symmetry; eapply Forall2_length, HF | auto].
  - destruct (Hno eq_refl) as [_ ->].
    split; [|auto]. apply Forall2_same_length_lookup_2; [reflexivity|].
    intros i x y Hx Hy. assert (x = y) as -> by congruence.
    apply sameSubscription_refl.
Qed.

(** *** Which entries a batch stamps *)

Lemma findIndex_lookup sub l i old :
  findIndex sub l = Some (i, old) -> l !! i = Some old /\ id old = id sub.
Proof. unfold findIndex. intros H. apply list_find_Some in H. tauto. Qed.

Lemma findIndex_first sub l i old :
  findIndex sub l = Some (i, old) ->
  forall j y, l !! j = Some y -> (j < i)%nat -> id y <> id sub.
Proof. unfold findIndex. intros H. apply list_find_Some in H. tauto. Qed.

(** One iteration leaves the local copy as it is or stamps the first entry
    with the id of its subscription. *)
Lemma sync_step_touch acc sub w :
  updatedSubscriptions (syncStep acc sub w).1 = updatedSubscriptions acc
  \/ exists r i old,
       network (length (fetched w)) (url sub) = Some r
       /\ findIndex sub (updatedSubscriptions acc) = Some (i, old)
       /\ updatedSubscriptions (syncStep acc sub w).1
          = <[i := withLastUpdated (clock (clockReads w)) old]> (updatedSubscriptions acc).
Proof.
  destruct (network (length (fetched w)) (url sub)) as [r|] eqn:Hnet.
  - rewrite (sync_step_ok _ _ _ _ _ _ _ Hnet).
    destruct (findIndex sub (updatedSubscriptions (merged r acc))) as [[i old]|] eqn:Hfind.
    + rewrite (stamp_found _ _ _ _ _ _ Hfind). cbn [fst updatedSubscriptions].
      rewrite mergeResult_subscriptions in Hfind |- *.
      right. exists r, i, old. auto.
    + rewrite (stamp_missing _ _ _ _ Hfind). cbn [fst].
      rewrite mergeResult_subscriptions. auto.
  - rewrite (sync_step_failed _ _ _ _ _ _ Hnet). auto.
Qed.

Lemma stampedIn_ids lo hi (ls ls' : list Subscription) :
  Forall2 (stamped lo hi) ls ls' -> id <$> ls' = id <$> ls.
Proof.
  induction 1 as [|x y ls ls' [(Hid & _) _] _ IH]; [reflexivity|].
  cbn. rewrite Hid, IH. reflexivity.
Qed.

(** An entry that one iteration changes has the id of the subscription of
    that iteration, and its fetch succeeded. *)
Lemma sync_step_touches acc sub w i s s1 :
  updatedSubscriptions acc !! i = Some s ->
  updatedSubscriptions (syncStep acc sub w).1 !! i = Some s1 ->
  s1 <> s ->
  (exists r, network (length (fetched w)) (url sub) = Some r) /\ id sub = id s.
Proof.
  intros Hs Hs1 Hne.
  destruct (sync_step_touch acc sub w) as [Heq | (r & j & old & Hnet & Hfind & Heq)].
  - rewrite Heq in Hs1. congruence.
  - rewrite Heq in Hs1. apply findIndex_lookup in Hfind as [Hj Hid].
    destruct (decide (i = j)) as [->|Hij].
    + split; [eauto|]. congruence.
    + rewrite list_lookup_insert_ne in Hs1 by auto. congruence.
Qed.

Lemma sync_loop_touches l : forall acc w i s s',
  updatedSubscriptions acc !! i = Some s ->
  updatedSubscriptions (syncLoop l acc w).1 !! i = Some s' ->
  s' <> s ->
  exists k sub r,
    l !! k = Some sub
    /\ network (length (fetched w) + k) (url sub) = Some r
    /\ id sub = id s.
Proof.
  induction l as [|sub l IH]; intros acc w i s s' Hs Hs' Hne.
  - cbn in Hs'. congruence.
  - rewrite (sync_loop_cons mergeSources network clock) in Hs'.
    pose proof (sync_step_spec mergeSources network clock acc sub w)
      as (_ & _ & Hf & _ & HF & _).
    cbn zeta in *.
    destruct (Forall2_lookup_l _ _ _ _ _ HF Hs) as (s1 & Hs1 & [(Hid1 & _) _]).
    destruct (decide (s1 = s)) as [->|Hne1].
    + destruct (IH _ _ i s s' Hs1 Hs' Hne) as (k & sub' & r & Hk & Hnet & Hid).
      exists (S k), sub', r. split; [exact Hk|]. split; [|exact Hid].
      rewrite Hf, length_app in Hnet. cbn in Hnet.
      rewrite <- Hnet. f_equal. lia.
    + destruct (sync_step_touches acc sub w i s s1 Hs Hs1 Hne1) as [[r Hnet] Hid].
      exists 0%nat, sub, r. rewrite Nat.add_0_r. auto.
Qed.

(** When the store changes an entry of the subscription list in a batch that
    starts from the stored list, an active subscription with the id of that
    entry was fetched successfully in the batch. *)
Theorem sync_stamps_only_fetched subs w i s s' :
  subs = subscriptions (store w) ->
  subscriptions (store w) !! i = Some s ->
  subscriptions (store (syncBatch subs w).2) !! i = Some s' ->
  s' <> s ->
  exists k sub r,
    filter active subs !! k = Some sub
    /\ network (length (fetched w) + k) (url sub) = Some r
    /\ id sub = id s.
Proof.
  intros Hsubs Hs Hs' Hne.
  pose proof (sync_saves mergeSources network clock subs w) as (_ & _ & _ & _ & Hyes & Hno).
  cbn zeta in *.
  destruct (anyChanged (syncLoop (filter active subs) (initialAcc (store w) subs) w).1).
  - destruct (Hyes eq_refl) as [_ Hst]. rewrite Hst in Hs'. cbn in Hs'.
    eapply (sync_loop_touches _ (initialAcc (store w) subs) w i s s'); [|exact Hs'|exact Hne].
    cbn. rewrite Hsubs. exact Hs.
  - destruct (Hno eq_refl) as [_ Hst]. rewrite Hst in Hs'. congruence.
Qed.

(** An entry that stands behind another one with the same id is never the
    first match of the search. *)
Lemma sync_loop_shadowed l : forall acc w i j sj,
  (i < j)%nat ->
  (exists si, updatedSubscriptions acc !! i = Some si /\ id si = id sj) ->
  updatedSubscriptions acc !! j = Some sj ->
  updatedSubscriptions (syncLoop l acc w).1 !! j = Some sj.
Proof.
  induction l as [|sub l IH]; intros acc w i j sj Hij (si & Hi & Hid) Hj; [exact Hj|].
  rewrite (sync_loop_cons mergeSources network clock).
  pose proof (sync_step_spec mergeSources network clock acc sub w)
    as (_ & _ & _ & _ & HF & _).
  cbn zeta in *.
  destruct (Forall2_lookup_l _ _ _ _ _ HF Hi) as (si1 & Hi1 & [(Hid1 & _) _]).
  apply (IH _ _ i j sj Hij); [exists si1; split; [exact Hi1 | congruence]|].
  destruct (sync_step_touch acc sub w) as [Heq | (r & idx & old & _ & Hfind & Heq)];
    rewrite Heq; [exact Hj|].
  destruct (decide (idx = j)) as [->|Hne].
  - exfalso. pose proof (findIndex_first _ _ _ _ Hfind i si Hi Hij) as Hfirst.
    apply findIndex_lookup in Hfind as [Hold Hidold]. congruence.
  - rewrite list_lookup_insert_ne by auto. exact Hj.
Qed.

(** Among the stored subscriptions that share an id only the first one is
    ever stamped: an entry behind another one with the same id is stored
    again as it was. *)
Theorem sync_skips_shadowed subs w i j si sj :
  subs = subscriptions (store w) ->
  (i < j)%nat ->
  subscriptions (store w) !! i = Some si ->
  subscriptions (store w) !! j = Some sj ->
  id si = id sj ->
  subscriptions (store (sync mergeSources network clock subs w).2) !! j = Some sj.
Proof.
  intros Hsubs Hij Hi Hj Hid.
  pose proof (sync_saves mergeSources network clock subs w) as (_ & _ & _ & _ & Hyes & Hno).
  cbn zeta in *.
  destruct (anyChanged (syncLoop (filter active subs) (initialAcc (store w) subs) w).1).
  - destruct (Hyes eq_refl) as [_ ->]. cbn.
    apply (sync_loop_shadowed _ (initialAcc (store w) subs) w i j sj Hij).
    + exists si. cbn. rewrite Hsubs. auto.
    + cbn. rewrite Hsubs. exact Hj.
  - destruct (Hno eq_refl) as [_ ->]. exact Hj.
Qed.

(** *** The stamps with unique ids *)

Lemma findIndex_unique sub l i :
  NoDup (id <$> l) -> l !! i = Some sub -> findIndex sub l = Some (i, sub).
Proof.
  intros Hnd Hi. unfold findIndex. apply list_find_Some.
  split; [exact Hi|]. split; [reflexivity|].
  intros j y Hj Hlt Hid.
  assert (i = j); [|lia].
  apply (NoDup_lookup (id <$> l) i j (id sub) Hnd).
  - rewrite list_lookup_fmap, Hi. reflexivity.
  - rewrite list_lookup_fmap, Hj. cbn. congruence.
Qed.

(** What one iteration leaves at the place of its own subscription. *)
Lemma sync_step_own acc sub w i :
  NoDup (id <$> updatedSubscriptions acc) ->
  updatedSubscriptions acc !! i = Some sub ->
  updatedSubscriptions (syncStep acc sub w).1 !! i
  = Some (match network (length (fetched w)) (url sub) with
          | Some _ => withLastUpdated (clock (clockReads w)) sub
          | None => sub
          end).
Proof.
  intros Hnd Hi.
  destruct (network (length (fetched w)) (url sub)) as [r|] eqn:Hnet.
  - rewrite (sync_step_ok _ _ _ _ _ _ _ Hnet).
    assert (Hfind : findIndex sub (updatedSubscriptions (merged r acc)) = Some (i, sub))
      by (rewrite mergeResult_subscriptions; apply findIndex_unique; assumption).
    rewrite (stamp_found _ _ _ _ _ _ Hfind). cbn [fst updatedSubscriptions].
    rewrite mergeResult_subscriptions.
    apply list_lookup_insert_eq. eapply lookup_lt_Some, Hi.
  - rewrite (sync_step_failed _ _ _ _ _ _ Hnet). exact Hi.
Qed.

(** The loop leaves alone an entry whose id none of its subscriptions has. *)
Lemma sync_loop_foreign l acc w i s :
  updatedSubscriptions acc !! i = Some s ->
  (forall sub, sub ∈ l -> id sub <> id s) ->
  updatedSubscriptions (syncLoop l acc w).1 !! i = Some s.
Proof.
  intros Hs Hfor.
  pose proof (sync_loop_spec mergeSources network clock l acc w)
    as (_ & _ & _ & _ & HF & _). cbn zeta in HF.
  destruct (Forall2_lookup_l _ _ _ _ _ HF Hs) as (s' & Hs' & _).
  destruct (decide (s' = s)) as [->|Hne]; [exact Hs'|].
  destruct (sync_loop_touches l acc w i s s' Hs Hs' Hne) as (k & sub & r & Hk & _ & Hid).
  exfalso. apply (Hfor sub); [eapply list_elem_of_lookup_2, Hk | exact Hid].
Qed.

Lemma sync_loop_stamps_unique l : forall acc w k sub i,
  NoDup (id <$> l) ->
  NoDup (id <$> updatedSubscriptions acc) ->
  (forall sub', sub' ∈ l -> present sub' (updatedSubscriptions acc)) ->
  l !! k = Some sub ->
  updatedSubscriptions acc !! i = Some sub ->
  updatedSubscriptions (syncLoop l acc w).1 !! i
  = Some (match network (length (fetched w) + k) (url sub) with
          | Some _ =>
              withLastUpdated
                (clock (clockReads w + length (successes (length (fetched w)) (take k l))))
                sub
          | None => sub
          end).
Proof.
  induction l as [|sub0 l IH]; intros acc w k sub i Hndl Hnda Hpres Hk Hi; [discriminate|].
  rewrite (sync_loop_cons mergeSources network clock).
  cbn [fmap list_fmap] in Hndl. apply NoDup_cons in Hndl as [Hfresh Hndl].
  pose proof (sync_step_spec mergeSources network clock acc sub0 w)
    as (_ & _ & Hf & _ & HF & _).
  cbn zeta in *.
  assert (Hlen : length (fetched (syncStep acc sub0 w).2) = S (length (fetched w)))
    by (rewrite Hf, length_app; cbn; lia).
  assert (Hfor : forall sub', sub' ∈ l -> id sub' <> id sub0).
  { intros sub' Hin Heq. apply Hfresh. rewrite <- Heq.
    apply list_elem_of_fmap. eauto. }
  destruct k as [|k]; cbn in Hk.
  - injection Hk as ->.
    change (length (successes (length (fetched w)) (take 0 (sub :: l)))) with 0%nat.
    rewrite !Nat.add_0_r.
    pose proof (sync_step_own acc sub w i Hnda Hi) as Hown.
    apply sync_loop_foreign; [exact Hown|].
    intros sub' Hin. destruct (network (length (fetched w)) (url sub));
      cbn; apply Hfor, Hin.
  - assert (Hsubin : sub ∈ l) by (eapply list_elem_of_lookup_2, Hk).
    assert (Hi1 : updatedSubscriptions (syncStep acc sub0 w).1 !! i = Some sub).
    { destruct (Forall2_lookup_l _ _ _ _ _ HF Hi) as (s1 & Hs1 & _).
      destruct (decide (s1 = sub)) as [->|Hne]; [exact Hs1|].
      destruct (sync_step_touches acc sub0 w i sub s1 Hi Hs1 Hne) as [_ Hid].
      exfalso. apply (Hfor sub Hsubin). congruence. }
    assert (Hpres0 : present sub0 (updatedSubscriptions acc)) by (apply Hpres; left).
    pose proof (sync_step_accounting acc sub0 w Hpres0) as [_ Hclk]. cbn zeta in Hclk.
    rewrite (IH _ _ k sub i Hndl); [| |
      intros sub' Hin; eapply present_kept; [exact HF | apply Hpres; right; exact Hin] |
      exact Hk | exact Hi1];
      [|rewrite (stampedIn_ids _ _ _ _ HF); exact Hnda].
    rewrite Hlen, Hclk. cbn [take]. rewrite successes_cons, length_app.
    replace (S (length (fetched w)) + k)%nat with (length (fetched w) + S k)%nat by lia.
    destruct (network (length (fetched w) + S k) (url sub)); [|reflexivity].
    do 3 f_equal. destruct (network (length (fetched w)) (url sub0)); cbn; lia.
Qed.

(** With unique ids, in a batch that starts from the stored list and saves:
    an active subscription whose fetch succeeded is stored with the clock
    reading taken at its turn, which is the reading after those of the
    successful fetches before it; an active subscription whose fetch failed
    and a subscription that is switched off are stored as they were. *)
Theorem sync_stamps_unique subs w :
  NoDup (id <$> subs) ->
  subs = subscriptions (store w) ->
  existsb gotSources (outcomes (length (fetched w)) (filter active subs)) = true ->
  let n := length (fetched w) in
  let w' := (syncBatch subs w).2 in
  (forall k sub,
      filter active subs !! k = Some sub ->
      exists i,
        subscriptions (store w) !! i = Some sub
        /\ subscriptions (store w') !! i
           = Some (match network (n + k) (url sub) with
                   | Some _ =>
                       withLastUpdated
                         (clock (clockReads w
                                 + length (successes n (take k (filter active subs)))))
                         sub
                   | None => sub
                   end))
  /\ (forall i s,
        subscriptions (store w) !! i = Some s -> ~ active s ->
        subscriptions (store w') !! i = Some s).
Proof.
  intros Hnd Hsubs Hgot. cbn zeta.
  pose proof (sync_saves mergeSources network clock subs w) as (Ha & _ & _ & _ & Hyes & _).
  cbn zeta in *. rewrite Hgot in Ha. destruct (Hyes Ha) as [_ Hst].
  rewrite Hst. cbn [subscriptions savedSettings]. rewrite <- Hsubs.
  assert (Hndl : NoDup (id <$> filter active subs)).
  { eapply sublist_NoDup; [exact Hnd|]. apply fmap_sublist, sublist_filter. }
  split.
  - intros k sub Hk.
    assert (Hin : sub ∈ subs).
    { apply list_elem_of_lookup_2 in Hk. apply list_elem_of_filter in Hk. tauto. }
    apply list_elem_of_lookup in Hin as [i Hi]. exists i. split; [exact Hi|].
    apply (sync_loop_stamps_unique (filter active subs) (initialAcc (store w) subs) w k sub i);
      auto.
    intros sub'. apply active_present.
  - intros i s Hi Hoff.
    apply (sync_loop_foreign (filter active subs) (initialAcc (store w) subs) w i s Hi).
    intros sub Hin Hid. apply list_elem_of_filter in Hin as [Hact Hin].
    apply list_elem_of_lookup in Hin as [j Hj].
    assert (i = j).
    { apply (NoDup_lookup (id <$> subs) i j (id s) Hnd).
      - rewrite list_lookup_fmap, Hi. reflexivity.
      - rewrite list_lookup_fmap, Hj. cbn. congruence. }
    subst j. apply Hoff. congruence.
Qed.

(** *** Batches without an active subscription, and batch after batch *)

(** When every subscription is switched off (or there is none) [sync]
    returns at once: no request, no clock reading, no log line, no write. *)
Theorem sync_all_off subs w :
  Forall (fun s => autoRefresh s = Some false) subs ->
  sync mergeSources network clock subs w = (tt, w).
Proof.
  intros Hoff.
  assert (Hnil : filter active subs = []).
  { induction Hoff as [|s subs Hs _ IH]; [reflexivity|].
    rewrite filter_cons_False; [exact IH|]. unfold active. intros Hact. congruence. }
  rewrite (sync_unfold mergeSources network clock), Hnil. reflexivity.
Qed.

Lemma active_kept (ls ls' : list Subscription) :
  Forall2 sameSubscription ls ls' -> filter active ls <> [] -> filter active ls' <> [].
Proof.
  induction 1 as [|x y ls ls' (_ & _ & _ & Hauto) _ IH]; [auto|].
  rewrite !filter_cons.
  destruct (decide (active y)) as [Hy|Hy]; [discriminate|].
  destruct (decide (active x)) as [Hx|Hx]; [|exact IH].
  exfalso. apply Hy. unfold active in *. congruence.
Qed.

Lemma outcomes_got n l :
  (forall k u, gotSources (network k u) = true) ->
  l <> [] -> existsb gotSources (outcomes n l) = true.
Proof.
  intros Hgot Hl. destruct l as [|sub l]; [congruence|].
  cbn. rewrite Hgot. reflexivity.
Qed.

(** When every request succeeds with a non-empty list and the store holds an
    active subscription, every round of the hook writes the store again: the
    rounds do not come to rest, however often the same sources come back. *)
Theorem rounds_keep_saving n : forall w,
  (forall k u, gotSources (network k u) = true) ->
  filter active (subscriptions (store w)) <> [] ->
  length (saves (rounds mergeSources network clock n w)) = (length (saves w) + n)%nat.
Proof.
  induction n as [|n IH]; intros w Hgot Hact; cbn [rounds]; [lia|].
  pose proof (sync_saves mergeSources network clock (subscriptions (store w)) w)
    as (Ha & _ & _ & HF & Hyes & _).
  cbn zeta in *.
  rewrite (outcomes_got _ _ Hgot Hact) in Ha.
  destruct (Hyes Ha) as [Hsv Hst].
  rewrite IH; [rewrite Hsv, length_app; cbn; lia | exact Hgot |].
  rewrite Hst. cbn [subscriptions savedSettings].
  eapply active_kept; [|exact Hact]. eapply stampedIn_same, HF.
Qed.

End SyncFurther.

(** ** The debounce: the timer table over any run *)

Section DebounceFurther.

Implicit Types (t : Timers) (evs : list Event).

(** Nothing is pending, or the one timer the cleanup holds. *)
Local Abbreviation atMostOne t :=
  (pending t = [] \/ exists i due, timeoutId t = Some i /\ pending t = [(i, due)]).

Lemma atMostOne_covers t : atMostOne t -> cleanupCovers t.
Proof.
  unfold cleanupCovers. intros [Hp | (i & due & Hi & Hp)].
  - rewrite Hp. destruct (timeoutId t); [constructor | reflexivity].
  - rewrite Hi, Hp. repeat constructor.
Qed.

Lemma filter_due_split (l : list (nat * Z)) (now' : Z) :
  (length (filter (fun p : nat * Z => (p.2 <= now')%Z) l)
   + length (filter (fun p : nat * Z => ~ (p.2 <= now')%Z) l) = length l)%nat.
Proof.
  induction l as [|p l IH]; [reflexivity|].
  rewrite !filter_cons.
  destruct (decide (p.2 <= now')), (decide (~ p.2 <= now')); cbn; try lia; tauto.
Qed.

Lemma atMostOne_step t ev : atMostOne t -> atMostOne (step t ev).
Proof.
  intros H. destruct ev as [|dt]; cbn [step].
  - right. destruct (subscriptionsChanged_arms t (atMostOne_covers t H)) as (Hp & Hi & _).
    eauto.
  - destruct H as [Hp | (i & due & Hi & Hp)].
    + left. apply elapse_idle, Hp.
    + destruct (decide (due <= now t + dt)) as [Hdue|Hearly].
      * left. apply (elapse_due t i due dt Hp Hdue).
      * right. destruct (elapse_early t i due dt Hp) as (Hp' & Hi' & _); [lia|].
        exists i, due. rewrite Hi'. auto.
Qed.

Lemma atMostOne_run evs : forall t, atMostOne t -> atMostOne (run evs t).
Proof.
  induction evs as [|ev evs IH]; intros t H; [exact H|].
  apply IH, atMostOne_step, H.
Qed.

Lemma atMostOne_mount (start : Z) : atMostOne (mountSync start).
Proof. right. exists 0%nat, (start + 1000). split; reflexivity. Qed.

(** From the mount on, whatever changes and however time passes, at most one
    timer is pending, and it is the one the next cleanup clears. *)
Theorem one_pending_timer (start : Z) evs :
  (length (pending (run evs (mountSync start))) <= 1)%nat
  /\ cleanupCovers (run evs (mountSync start)).
Proof.
  pose proof (atMostOne_run evs (mountSync start) (atMostOne_mount start)) as H.
  split; [|apply atMostOne_covers, H].
  destruct H as [-> | (i & due & _ & ->)]; cbn; lia.
Qed.

Lemma launches_step t ev :
  atMostOne t ->
  (length (launches (step t ev)) + length (pending (step t ev))
   <= length (launches t) + length (pending t) + (if isChange ev then 1 else 0))%nat.
Proof.
  intros H. destruct ev as [|dt]; cbn [step isChange].
  - destruct (subscriptionsChanged_arms t (atMostOne_covers t H)) as (Hp & _ & _ & Hl).
    rewrite Hp, Hl. cbn. lia.
  - unfold elapse. cbn. rewrite length_app, length_fmap.
    pose proof (filter_due_split (pending t) (now t + dt)). lia.
Qed.

Lemma launches_run evs : forall t,
  atMostOne t ->
  (length (launches (run evs t)) + length (pending (run evs t))
   <= length (launches t) + length (pending t) + countChanges evs)%nat.
Proof.
  induction evs as [|ev evs IH]; intros t H; [cbn; lia|].
  change (run (ev :: evs) t) with (run evs (step t ev)).
  pose proof (IH (step t ev) (atMostOne_step t ev H)) as H1.
  pose proof (launches_step t ev H) as H2.
  unfold countChanges in *. rewrite filter_cons.
  destruct (isChange ev); destruct (decide _); cbn in *; try congruence; lia.
Qed.

(** Every start of [sync] is due to the mount or to a change of the
    subscription list: over any run there are at most as many starts as
    there were changes, plus one. *)
Theorem launches_bounded_by_changes (start : Z) evs :
  (length (launches (run evs (mountSync start))) <= S (countChanges evs))%nat.
Proof.
  pose proof (launches_run evs (mountSync start) (atMostOne_mount start)) as H.
  change (length (launches (mountSync start))) with 0%nat in H.
  change (length (pending (mountSync start))) with 1%nat in H.
  lia.
Qed.

Lemma idle_stays (es : list Z) : forall t,
  pending t = [] -> launches (run (Elapse <$> es) t) = launches t.
Proof.
  induction es as [|e es IH]; intros t Hp; [reflexivity|].
  change (run (Elapse <$> e :: es) t) with (run (Elapse <$> es) (elapse e t)).
  destruct (elapse_idle t e Hp) as [Hp' Hl'].
  rewrite (IH _ Hp'). exact Hl'.
Qed.

(** The cleanup alone, as at the unmount, clears what is pending: however
    time passes afterwards, no [sync] is started. *)
Theorem cleanup_cancels t (es : list Z) :
  cleanupCovers t ->
  pending (cleanupSync t) = []
  /\ launches (run (Elapse <$> es) (cleanupSync t)) = launches t.
Proof.
  intros Hcov.
  assert (Hp : pending (cleanupSync t) = []).
  { unfold cleanupCovers, cleanupSync in *. destruct (timeoutId t) as [i|]; [|exact Hcov].
    cbn. induction Hcov as [|p l Hpi _ IH]; [reflexivity|].
    rewrite filter_cons_False by (intros Hne; apply Hne, Hpi). exact IH. }
  split; [exact Hp|].
  assert (Hl : launches (cleanupSync t) = launches t).
  { unfold cleanupSync. destruct (timeoutId t); reflexivity. }
  rewrite (idle_stays es _ Hp). exact Hl.
Qed.

End DebounceFurther.

(** * The further properties at concrete inputs *)

Lemma handleUnlock_opens_iff_witness :
  let w := exampleWorld true "guess" true ∅ true ["secret"%string] in
  let valid :=
    password (gate w) ∈ accessPasswords (settingsStore w)
    \/ (hasEnvPassword (gate w) = true /\ Answered true = Answered true) in
  (isLocked (gate (handleUnlock (Answered true) w)) = false <-> valid)
  /\ (sessionUnlocked (handleUnlock (Answered true) w) = true <-> valid).
Proof.
  cbn zeta. apply (handleUnlock_opens_iff (Answered true)); reflexivity.
Defined.

Lemma handleUnlock_posts_only_when_needed_witness :
  let w := exampleWorld true "guess" true ∅ true ["secret"%string] in
  (PostPassword "guess" ∈ effects w)
  \/ ("guess"%string = password (gate w)
      /\ (password (gate w) ∉ accessPasswords (settingsStore w))
      /\ hasEnvPassword (gate w) = true).
Proof.
  cbn zeta.
  apply (handleUnlock_posts_only_when_needed (Answered false)).
  vm_compute. left.
Defined.

Lemma late_answer_relocks_witness :
  let w := exampleWorld true "secret" false ∅ true ["secret"%string] in
  let c := (init_local false w).1 in
  let w1 := (init_local false w).2 in
  let w2 := handleUnlock RequestFailed w1 in
  let w3 := init_remote exampleSyncEnv c (Some (mkConfigData false None)) w2 in
  isLocked (gate w2) = false
  /\ sessionUnlocked w2 = true
  /\ sessionUnlocked w3 = true
  /\ isLocked (gate w3) = true.
Proof.
  cbn zeta. apply (late_answer_relocks exampleSyncEnv).
  - reflexivity.
  - left. cbn. compute_done.
  - reflexivity.
Defined.

Lemma render_after_submit_witness :
  let w := exampleWorld true "guess" false ∅ true ["secret"%string] in
  render (gate (handleUnlock RequestFailed w)) = RenderPrompt "guess" true
  /\ render (gate (onPasswordChange "s" (handleUnlock RequestFailed w)))
     = RenderPrompt "s" false.
Proof.
  cbn zeta.
  apply (render_after_submit RequestFailed "s"
           (exampleWorld true "guess" false ∅ true ["secret"%string]));
    reflexivity.
Defined.

Lemma unlocked_session_sticky_witness :
  let w := exampleWorld false "" true unlockedSession true ["secret"%string] in
  sessionUnlocked (gateRun exampleSyncEnv exampleEvents w) = true
  /\ isLocked (gate (gateRun exampleSyncEnv exampleEvents w)) = false.
Proof.
  cbn zeta.
  destruct (unlocked_session_sticky exampleSyncEnv exampleEvents
              (exampleWorld false "" true unlockedSession true ["secret"%string]))
    as [Hflag Hopen].
  - reflexivity.
  - split; [exact Hflag|]. apply Hopen; [reflexivity|].
    repeat constructor.
Defined.

Lemma sync_keeps_settings_witness :
  let w' := (sync exampleMerge exampleNetwork exampleClock exampleSubs exampleSyncWorld).2 in
  Forall2 sameSubscription (subscriptions (store exampleSyncWorld)) (subscriptions (store w'))
  /\ length (subscriptions (store w')) = length (subscriptions (store exampleSyncWorld))
  /\ passwordAccess (store w') = passwordAccess (store exampleSyncWorld)
  /\ accessPasswords (store w') = accessPasswords (store exampleSyncWorld)
  /\ rest (store w') = rest (store exampleSyncWorld).
Proof.
  cbn zeta. apply (sync_keeps_settings exampleMerge exampleNetwork exampleClock). reflexivity.
Defined.

Lemma sync_stamps_only_fetched_witness :
  exists k sub r,
    filter active exampleSubs !! k = Some sub
    /\ exampleNetwork (length (fetched exampleSyncWorld) + k) (url sub) = Some r
    /\ id sub = id subA.
Proof.
  apply (sync_stamps_only_fetched exampleMerge exampleNetwork exampleClock exampleSubs
           exampleSyncWorld 0 subA (withLastUpdated 1000 subA)).
  - reflexivity.
  - reflexivity.
  - reflexivity.
  - discriminate.
Defined.

Lemma sync_skips_shadowed_witness :
  subscriptions (store (sync exampleMerge steadyNetwork exampleClock dupSubs dupWorld).2)
    !! 1%nat = Some subA2.
Proof.
  apply (sync_skips_shadowed exampleMerge steadyNetwork exampleClock dupSubs dupWorld
           0 1 subA subA2); try reflexivity. lia.
Defined.

Lemma sync_stamps_unique_witness :
  let w' := (sync exampleMerge exampleNetwork exampleClock exampleSubs exampleSyncWorld).2 in
  (exists i,
      subscriptions (store exampleSyncWorld) !! i = Some subC
      /\ subscriptions (store w') !! i = Some (withLastUpdated (exampleClock 1) subC))
  /\ subscriptions (store w') !! 1%nat = Some subOff.
Proof.
  cbn zeta.
  destruct (sync_stamps_unique exampleMerge exampleNetwork exampleClock exampleSubs
              exampleSyncWorld) as [Hact Hoff].
  - compute_done.
  - reflexivity.
  - reflexivity.
  - split.
    + destruct (Hact 2%nat subC eq_refl) as (i & Hi & Hi'). exists i. auto.
    + apply Hoff; [reflexivity|]. unfold active. cbn. intros H. apply H. reflexivity.
Defined.

Lemma sync_all_off_witness :
  sync exampleMerge exampleNetwork exampleClock offSubs exampleSyncWorld
  = (tt, exampleSyncWorld).
Proof.
  apply sync_all_off. repeat constructor.
Defined.

Lemma rounds_keep_saving_witness :
  length (saves (rounds exampleMerge steadyNetwork exampleClock 3 pairWorld))
  = (length (saves pairWorld) + 3)%nat.
Proof.
  apply rounds_keep_saving.
  - intros k u. reflexivity.
  - discriminate.
Defined.

Lemma rounds_monotone_witness :
  Forall2 notEarlier (subscriptions (store exampleSyncWorld))
          (subscriptions (store (rounds exampleMerge exampleNetwork exampleClock 2
                                   exampleSyncWorld)))
  /\ stampsUpTo
       (exampleClock (clockReads (rounds exampleMerge exampleNetwork exampleClock 2
                                    exampleSyncWorld)))
       (subscriptions (store (rounds exampleMerge exampleNetwork exampleClock 2
                                exampleSyncWorld))).
Proof.
  apply rounds_monotone.
  - intros j k Hjk. unfold exampleClock. lia.
  - intros s u Hin Hu. apply list_elem_of_In in Hin. cbn in Hin.
    destruct Hin as [<-|[<-|[<-|[<-|[]]]]]; cbn in Hu; try discriminate;
      injection Hu as <-; unfold exampleClock; cbn; lia.
Defined.

Lemma cleanup_cancels_witness :
  pending (cleanupSync (mountSync 0)) = []
  /\ launches (run (Elapse <$> ([500%Z; 5000%Z] : list Z)) (cleanupSync (mountSync 0)))
     = launches (mountSync 0).
Proof.
  apply cleanup_cancels. unfold cleanupCovers. cbn. repeat constructor.
Defined.

Lemma unmounted_ignores_witness :
  let w := unmount (exampleWorld true "" true ∅ true ["secret"%string]) in
  let evs := [ConfigAnswered (mkInitClosure (exampleSettings false []) false)
                             (Some (mkConfigData false
                                      (Some ["https://env.example/feed"%string])));
              StoreChanged (exampleSettings false [])] in
  gate (gateRun exampleSyncEnv evs w) = gate w
  /\ sessionStorage (gateRun exampleSyncEnv evs w) = sessionStorage w
  /\ mounted (gateRun exampleSyncEnv evs w) = false.
Proof.
  cbn zeta.
  destruct (unmounted_ignores exampleSyncEnv
              [ConfigAnswered (mkInitClosure (exampleSettings false []) false)
                              (Some (mkConfigData false
                                       (Some ["https://env.example/feed"%string])));
               StoreChanged (exampleSettings false [])]
              (unmount (exampleWorld true "" true ∅ true ["secret"%string])))
    as (Hg & Hs & Hm & _).
  - reflexivity.
  - repeat constructor.
  - auto.
Defined.
